(** * Topological features of persistence diagrams: a shallow embedding

    The development follows the notebook
    [notebooks/feature engineering via tda.ipynb]: the segmenter
    [sliding_windows], the diagram features ([get_diagram_lives],
    [get_diagram_entropy], [get_area_under_betti_curve],
    [get_area_under_landscape], [get_diagram_features]) and the rolling
    aggregation of the last cells.

    Numbers.  The notebook computes on NumPy [float64] values.  They are
    modelled as real numbers extended with the three special values of
    IEEE arithmetic ([+inf], [-inf], [nan]); rounding and the sign of zero
    are abstracted away, the propagation of [inf] and [nan] is kept.
    Reals neither overflow nor underflow: where a result depends on the
    size of the numbers, the statement asks for values within
    [safe_bound], far inside the range of [float64].
    Python integers are [Z]. *)

From Stdlib Require Import Reals Lra Lia ZArith List Bool Permutation.
Import ListNotations.

Local Open Scope R_scope.

(** ** Values *)

Inductive val : Type :=
| Fin (r : R)
| PInf
| NInf
| NaN.

(** A diagram is an array of shape [(n, 2)]: a list of rows
    [(birth, death)]; the empty list is the array of shape [(0, 2)]. *)
Definition row : Type := (val * val)%type.
Definition diagram : Type := list row.

(** Exceptions the modelled code can raise. *)
Inductive exn : Type :=
| IndexError
| ValueError.

Definition result (A : Type) : Type := (exn + A)%type.

Definition ret {A : Type} (a : A) : result A := inr a.
Definition raise {A : Type} (e : exn) : result A := inl e.
Definition bind {A B : Type} (m : result A) (k : A -> result B) : result B :=
  match m with
  | inl e => inl e
  | inr a => k a
  end.

Notation "x <- m ;; k" := (bind m (fun x => k))
  (at level 61, m at next level, right associativity).

(** ** Comparisons on reals, as booleans *)

Definition Rltb (x y : R) : bool := if Rlt_dec x y then true else false.
Definition Reqb (x y : R) : bool := if Req_dec_T x y then true else false.

(** ** IEEE-style arithmetic on values *)

Definition vneg (a : val) : val :=
  match a with
  | Fin x => Fin (- x)
  | PInf => NInf
  | NInf => PInf
  | NaN => NaN
  end.

Definition vadd (a b : val) : val :=
  match a, b with
  | NaN, _ | _, NaN => NaN
  | Fin x, Fin y => Fin (x + y)
  | PInf, NInf | NInf, PInf => NaN
  | PInf, _ | _, PInf => PInf
  | NInf, _ | _, NInf => NInf
  end.

Definition vsub (a b : val) : val := vadd a (vneg b).

(** The sign of a real, used where an infinity is multiplied or produced. *)
Definition signed_inf (x : R) : val :=
  if Rltb 0 x then PInf else if Rltb x 0 then NInf else NaN.

Definition vmul (a b : val) : val :=
  match a, b with
  | NaN, _ | _, NaN => NaN
  | Fin x, Fin y => Fin (x * y)
  | Fin x, PInf | PInf, Fin x => signed_inf x
  | Fin x, NInf | NInf, Fin x => signed_inf (- x)
  | PInf, PInf | NInf, NInf => PInf
  | PInf, NInf | NInf, PInf => NInf
  end.

Definition vdiv (a b : val) : val :=
  match a, b with
  | NaN, _ | _, NaN => NaN
  | Fin x, Fin y => if Reqb y 0 then signed_inf x else Fin (x / y)
  | Fin _, PInf | Fin _, NInf => Fin 0
  | PInf, Fin y => if Rltb y 0 then NInf else PInf
  | NInf, Fin y => if Rltb y 0 then PInf else NInf
  | PInf, PInf | PInf, NInf | NInf, PInf | NInf, NInf => NaN
  end.

Definition vabs (a : val) : val :=
  match a with
  | Fin x => Fin (Rabs x)
  | PInf | NInf => PInf
  | NaN => NaN
  end.

(** [np.sqrt]: [nan] on negative arguments. *)
Definition vsqrt (a : val) : val :=
  match a with
  | Fin x => if Rltb x 0 then NaN else Fin (sqrt x)
  | PInf => PInf
  | NInf | NaN => NaN
  end.

(** [np.log]: [-inf] at zero, [nan] on negative arguments. *)
Definition vlog (a : val) : val :=
  match a with
  | Fin x => if Rltb 0 x then Fin (ln x) else if Reqb x 0 then NInf else NaN
  | PInf => PInf
  | NInf | NaN => NaN
  end.

(** [==] and [>] of IEEE arithmetic: every comparison with [nan] is false. *)
Definition veqb (a b : val) : bool :=
  match a, b with
  | Fin x, Fin y => Reqb x y
  | PInf, PInf | NInf, NInf => true
  | _, _ => false
  end.

Definition vgtb (a b : val) : bool :=
  match a, b with
  | NaN, _ | _, NaN => false
  | Fin x, Fin y => Rltb y x
  | PInf, PInf => false
  | PInf, _ => true
  | _, NInf => match a with NInf => false | _ => true end
  | _, _ => false
  end.

Definition np_isinf (a : val) : bool :=
  match a with
  | PInf | NInf => true
  | _ => false
  end.

Definition np_isnan (a : val) : bool :=
  match a with
  | NaN => true
  | _ => false
  end.

(** [np.maximum]: propagates [nan]. *)
Definition np_maximum (a b : val) : val :=
  match a, b with
  | NaN, _ | _, NaN => NaN
  | _, _ => if vgtb b a then b else a
  end.

(** The order NumPy sorts by: [-inf] first, [nan] last. *)
Definition sort_leb (a b : val) : bool :=
  match a, b with
  | _, NaN => true
  | NaN, _ => false
  | NInf, _ => true
  | _, NInf => false
  | _, PInf => true
  | PInf, _ => false
  | Fin x, Fin y => negb (Rltb y x)
  end.

(** ** Python built-ins on sequences of values *)

(** [sum(xs)]: a left fold that starts from the integer [0]. *)
Definition py_sum (xs : list val) : val := fold_left vadd xs (Fin 0).

(** [max(xs)]: keeps the first element unless a later one is [>]; raises
    [ValueError] on an empty sequence. *)
Definition py_max (xs : list val) : result val :=
  match xs with
  | [] => raise ValueError
  | x :: t => ret (fold_left (fun m y => if vgtb y m then y else m) t x)
  end.

(** ** Segmenter *)

(** [range(start, stop, step)], which raises [ValueError] when [step] is
    zero. *)
Definition py_range (start stop step : Z) : result (list Z) :=
  if (step =? 0)%Z then raise ValueError
  else if (0 <? step)%Z then
    ret (map (fun k => (start + Z.of_nat k * step)%Z)
             (seq 0 (Z.to_nat ((stop - start + step - 1) / step))))
  else
    ret (map (fun k => (start + Z.of_nat k * step)%Z)
             (seq 0 (Z.to_nat ((start - stop - step - 1) / (- step))))).

(** A slice bound is counted from the end when negative and clamped to
    the sequence. *)
Definition slice_bound (n i : Z) : Z :=
  let j := if (i <? 0)%Z then (i + n)%Z else i in
  Z.max 0 (Z.min n j).

(** [y[i:j]]. *)
Definition py_slice {A : Type} (y : list A) (i j : Z) : list A :=
  let n := Z.of_nat (length y) in
  let lo := slice_bound n i in
  let hi := slice_bound n j in
  firstn (Z.to_nat (hi - lo)) (skipn (Z.to_nat lo) y).

Definition sliding_windows {A : Type} (y : list A)
    (subwindow_length subwindow_shift : Z) : result (list (list A)) :=
  starts <- py_range 0 (Z.of_nat (length y) - subwindow_length + 1)
                     subwindow_shift ;;
  ret (map (fun i => py_slice y i (i + subwindow_length)) starts).

(** ** NumPy sorting and row operations *)

(** [np.argsort], [np.lexsort] and the sort inside [np.unique] are modelled
    by a stable insertion sort ([x] is placed before the first element it
    is not greater than): elements with equal keys keep their order. *)
Fixpoint insert_by {A : Type} (leb : A -> A -> bool) (x : A) (l : list A)
    : list A :=
  match l with
  | [] => [x]
  | y :: t => if leb x y then x :: y :: t else y :: insert_by leb x t
  end.

Definition sort_by {A : Type} (leb : A -> A -> bool) (l : list A) : list A :=
  fold_right (insert_by leb) [] l.

Definition sort_ltb (a b : val) : bool := negb (sort_leb b a).

(** Rows compared by column 0, then by column 1. *)
Definition row_leb (r s : row) : bool :=
  sort_ltb (fst r) (fst s)
  || (sort_leb (fst r) (fst s) && sort_leb (snd r) (snd s)).

(** Elementwise [==] of two rows ([nan] differs from itself). *)
Definition row_eqb (r s : row) : bool :=
  veqb (fst r) (fst s) && veqb (snd r) (snd s).

(** The mask [aux[1:] != aux[:-1]] applied to a sorted array: an element is
    kept when it differs from its predecessor. *)
Fixpoint drop_repeats (prev : row) (l : list row) : list row :=
  match l with
  | [] => []
  | x :: t =>
      if row_eqb x prev then drop_repeats x t else x :: drop_repeats x t
  end.

(** [np.unique(a, axis=0)]: the sorted distinct rows. *)
Definition np_unique_rows (d : list row) : list row :=
  match sort_by row_leb d with
  | [] => []
  | x :: t => x :: drop_repeats x t
  end.

(** [a[np.lexsort((a[:,1], a[:,0]))]]. *)
Definition np_lexsort_rows (d : list row) : list row := sort_by row_leb d.

(** [a[a[:,0].argsort()]]. *)
Definition argsort_col0 (d : list row) : list row :=
  sort_by (fun r s => sort_leb (fst r) (fst s)) d.

Fixpoint accumulate_from (m : val) (l : list val) : list val :=
  match l with
  | [] => []
  | x :: t => let m' := np_maximum m x in m' :: accumulate_from m' t
  end.

(** [np.maximum.accumulate]. *)
Definition np_maximum_accumulate (l : list val) : list val :=
  match l with
  | [] => []
  | x :: t => x :: accumulate_from x t
  end.

(** Boolean-mask indexing [a[mask]]. *)
Fixpoint mask_select {A : Type} (l : list A) (mask : list bool) : list A :=
  match l, mask with
  | x :: t, b :: bs => if b then x :: mask_select t bs else mask_select t bs
  | _, _ => []
  end.

(** ** Diagram features *)

Definition get_diagram_lives (d : diagram) : list val :=
  match d with
  | [] => [Fin 0]
  | _ :: _ => map (fun r => vsub (snd r) (fst r)) d
  end.

Definition get_diagram_entropy (lives : list val) : result val :=
  m <- py_max (map vabs lives) ;;
  if veqb m (Fin 0) then ret (Fin 0)
  else
    let total := py_sum lives in
    let normalizedLives := map (fun l => vdiv l total) lives in
    ret (py_sum (map (fun p => vmul (vneg p) (vlog p)) normalizedLives)).

(** Tag of a point of the Betti curve: [0.] for a birth, [1.] for a death. *)
Inductive tag : Type :=
| Birth
| Death.

(** The sweep [for i in range(len(ptsSorted)-1)]: the height is updated from
    the tag of point [i], then the width to point [i+1] is accumulated. *)
Fixpoint betti_sweep (pts : list (val * tag)) (height : Z) (l1 l2 : val)
    : val * val :=
  match pts with
  | (p, t) :: ((q, _) :: _) as rest =>
      let height' :=
        match t with
        | Birth => (height + 1)%Z
        | Death => (height + -1)%Z
        end in
      betti_sweep rest height'
        (vadd l1 (vmul (Fin (IZR height')) (vsub q p)))
        (vadd l2 (vmul (Fin (IZR (height' ^ 2))) (vsub q p)))
  | _ => (l1, l2)
  end.

Definition get_area_under_betti_curve (d : diagram) : val * val :=
  match d with
  | [] => (Fin 0, Fin 0)
  | _ :: _ =>
      let allPts := map fst d ++ map snd d in
      let birthOrDeath := map (fun _ => Birth) d ++ map (fun _ => Death) d in
      let sorted :=
        sort_by (fun a b => sort_leb (fst a) (fst b))
                (combine allPts birthOrDeath) in
      let '(result_l1, result_l2) := betti_sweep sorted 0%Z (Fin 0) (Fin 0) in
      (result_l1, vsqrt result_l2)
  end.

Definition getLandscapePoints (d : diagram) : diagram :=
  let d1 := np_unique_rows d in
  let d2 := np_lexsort_rows d1 in
  let running := np_maximum_accumulate (map snd d2) in
  mask_select d2 (map (fun '(m, x) => veqb m x) (combine running (map snd d2))).

Definition half (a : val) : val := vdiv a (Fin 2).

(** The body of the loop of [getLandscapeReturnPoints], one survivor at a
    time: the peak, then the points that lead to the next survivor. *)
Fixpoint return_points_loop (d : diagram) : list row :=
  match d with
  | [] => []
  | (b, e) :: rest =>
      (half (vadd e b), half (vsub e b))
      :: match rest with
         | [] => [(e, Fin 0)]
         | (b', _) :: _ =>
             if vgtb b' e then [(e, Fin 0); (b', Fin 0)]
             else [(half (vadd e b'), half (vsub e b'))]
         end
      ++ return_points_loop rest
  end.

Definition getLandscapeReturnPoints (d : diagram) : result (list row) :=
  let d1 := argsort_col0 (getLandscapePoints d) in
  match d1 with
  | [] => raise IndexError
  | (b0, _) :: _ => ret (np_unique_rows ((b0, Fin 0) :: return_points_loop d1))
  end.

Definition l2areaUnderLine (p1 p2 : row) : val * val :=
  let '(x1, y1) := p1 in
  let '(x2, y2) := p2 in
  let result_l1 := vdiv (vneg (vmul (vsub x1 x2) (vadd y1 y2))) (Fin 2) in
  let result_l2 :=
    vdiv (vneg (vmul (vsub x1 x2)
                     (vadd (vadd (vmul y1 y1) (vmul y1 y2)) (vmul y2 y2))))
         (Fin 3) in
  (result_l1, result_l2).

Fixpoint landscape_sweep (pts : list row) (l1 l2 : val) : val * val :=
  match pts with
  | p :: (q :: _) as rest =>
      let '(area_l1, area_l2) := l2areaUnderLine p q in
      landscape_sweep rest (vadd l1 area_l1) (vadd l2 area_l2)
  | _ => (l1, l2)
  end.

Definition get_area_under_landscape (d : diagram) : result (val * val) :=
  match d with
  | [] => ret (Fin 0, Fin 0)
  | _ :: _ =>
      returnPoints <- getLandscapeReturnPoints d ;;
      let '(result_l1, result_l2) :=
        landscape_sweep returnPoints (Fin 0) (Fin 0) in
      ret (result_l1, vsqrt result_l2)
  end.

(** The rows without an infinite entry. *)
Definition drop_inf_rows (d : diagram) : diagram :=
  filter (fun r => negb (np_isinf (fst r) || np_isinf (snd r))) d.

Definition get_diagram_features (d : diagram) : result (list val) :=
  let d := drop_inf_rows d in
  let lives := get_diagram_lives d in
  let sumLives := vdiv (py_sum lives) (Fin (sqrt 2)) in
  maxLives <- py_max lives ;;
  let maxLife := vdiv maxLives (Fin (sqrt 2)) in
  diagramEntropy <- get_diagram_entropy lives ;;
  let '(areaBettiL1, areaBettiL2) := get_area_under_betti_curve d in
  areas <- get_area_under_landscape d ;;
  let '(areaLandscapeL1, areaLandscapeL2) := areas in
  ret [sumLives; maxLife; diagramEntropy; areaBettiL1; areaBettiL2;
       areaLandscapeL1; areaLandscapeL2].

(** ** Window aggregation *)

(** A pandas [DataFrame] of numbers: the row labels and the columns, each
    column holding one value per label. *)
Record DataFrame : Type := mkDataFrame {
  df_index : list nat;
  df_columns : list (list val)
}.

(** The observations of the window of [n] rows that ends at position [i]
    (fewer when the column starts less than [n] rows before [i]). *)
Definition window_at (n : nat) (col : list val) (i : nat) : list val :=
  skipn (i + 1 - n) (firstn (i + 1) col).

(** Number of observations of a window: the values that are neither
    [nan] nor infinite (pandas replaces the infinities by [nan] before
    its rolling kernels run). *)
Definition nobs (w : list val) : nat :=
  length (filter (fun v => negb (np_isnan v || np_isinf v)) w).

(** [rolling(n).mean()] at one position; [min_periods] defaults to [n]. *)
Definition rolling_mean_at (n : nat) (col : list val) (i : nat) : val :=
  let w := window_at n col i in
  if (nobs w <? n)%nat then NaN
  else vdiv (py_sum w) (Fin (INR (nobs w))).

(** [rolling(n).std()] at one position: the sample standard deviation
    ([ddof = 1]), [nan] unless there are more than [ddof] observations.
    The value is the exact one of the window; pandas updates running sums
    in [float64] from one window to the next, so only the positions where
    the result is [nan] are relied upon below. *)
Definition rolling_std_at (n : nat) (col : list val) (i : nat) : val :=
  let w := window_at n col i in
  if (nobs w <? n)%nat then NaN
  else if (nobs w <=? 1)%nat then NaN
  else
    let m := vdiv (py_sum w) (Fin (INR (nobs w))) in
    let squares := map (fun x => vmul (vsub x m) (vsub x m)) w in
    vsqrt (vdiv (py_sum squares) (Fin (INR (nobs w) - 1))).

Definition rolling (stat : nat -> list val -> nat -> val) (n : nat)
    (df : DataFrame) : DataFrame :=
  mkDataFrame (df_index df)
    (map (fun col => map (stat n col) (seq 0 (length col))) (df_columns df)).

(** [pd.concat([a, b], axis=1)] of two frames that carry the same labels,
    as the two rolling frames of [window_features] do: the alignment of
    the rows by label is then the identity. *)
Definition concat_columns (a b : DataFrame) : DataFrame :=
  mkDataFrame (df_index a) (df_columns a ++ df_columns b).

(** The values of the row at position [pos]. *)
Definition row_at (df : DataFrame) (pos : nat) : list val :=
  map (fun col => nth pos col NaN) (df_columns df).

(** [dropna()]: the rows with a [nan] are removed, labels are kept. *)
Definition dropna (df : DataFrame) : DataFrame :=
  let keep :=
    map (fun pos => forallb (fun v => negb (np_isnan v)) (row_at df pos))
        (seq 0 (length (df_index df))) in
  mkDataFrame (mask_select (df_index df) keep)
              (map (fun col => mask_select col keep) (df_columns df)).

(** The last cells of the notebook, with the window size [10] of
    [rolling(10)] as the parameter [subwindows_per_window]. *)
Definition window_features (all_subwindow_features : DataFrame)
    (subwindows_per_window : nat) : DataFrame :=
  let window_features_mean :=
    rolling rolling_mean_at subwindows_per_window all_subwindow_features in
  let window_features_std :=
    rolling rolling_std_at subwindows_per_window all_subwindow_features in
  dropna (concat_columns window_features_mean window_features_std).

(** A frame built from rows of feature vectors, labelled [0, 1, ...]. *)
Definition frame_of_columns (nrows : nat) (cols : list (list R)) : DataFrame :=
  mkDataFrame (seq 0 nrows) (map (map Fin) cols).

(** ** Reference statistics on reals *)

Definition Rsum (l : list R) : R := fold_right Rplus 0 l.

Definition Rmean (l : list R) : R := Rsum l / INR (length l).

(** Rows [i - n + 1] to [i] of a column. *)
Definition rows_of_window (n : nat) (col : list R) (i : nat) : list R :=
  firstn n (skipn (i + 1 - n) col).

(** The running maximum that [max] computes, on reals. *)
Definition Rmax_left (l : list R) (a : R) : R :=
  fold_left (fun m y => if Rltb m y then y else m) l a.

(** Shannon entropy of a list of weights, with [0 * ln 0] read as [0]. *)
Definition shannon_entropy (ps : list R) : R :=
  Rsum (map (fun p => if Reqb p 0 then 0 else - p * ln p) ps).

(** ** Range of the numbers *)

(** A magnitude [2^300]: the product of three values below it and the sum
    of that many such products stay below [2^1000], inside the range of
    [float64] (about [2^1024]); quotients of values between its inverse
    and it stay above [2^-1000], away from underflow. *)
Definition safe_bound : R := IZR (2 ^ 300).

(** A positive value that is neither too small nor too large. *)
Definition in_safe_range (x : R) : Prop := / safe_bound <= x <= safe_bound.

(** ** Predicates on diagrams *)

Definition is_finite (a : val) : Prop :=
  match a with
  | Fin _ => True
  | _ => False
  end.

Definition finite_row (r : row) : Prop := is_finite (fst r) /\ is_finite (snd r).

Definition finite_diagram (d : diagram) : Prop := Forall finite_row d.

(** The death of the row is a number or an infinity. *)
Definition death_not_nan (r : row) : Prop := np_isnan (snd r) = false.

(** The diagram of finite pairs given by pairs of reals. *)
Definition diagram_of (ps : list (R * R)) : diagram :=
  map (fun p => (Fin (fst p), Fin (snd p))) ps.

(** ** Series of feature vectors *)

(** [Series.map(f)]: [f] is applied to the values in order; the first
    exception is the one raised. *)
Fixpoint series_map {A B : Type} (f : A -> result B) (s : list A)
    : result (list B) :=
  match s with
  | [] => ret []
  | x :: t =>
      y <- f x ;;
      ys <- series_map f t ;;
      ret (y :: ys)
  end.

(** [pd_series_to_dataframe]: a series of lists, labelled [0, 1, ...],
    becomes the frame whose row [i] is the [i]-th list.  The dictionary
    of lists is turned into a frame by [DataFrame.from_dict], which raises
    [ValueError] when the lists differ in length, and then transposed. *)
Definition pd_series_to_dataframe (series : list (list val))
    : result DataFrame :=
  match series with
  | [] => ret (mkDataFrame [] [])
  | r0 :: _ =>
      if forallb (fun r => (length r =? length r0)%nat) series
      then ret (mkDataFrame (seq 0 (length series))
                  (map (fun j => map (fun r => nth j r NaN) series)
                       (seq 0 (length r0))))
      else raise ValueError
  end.

(** Every column of the frame has one value per label. *)
Definition frame_wf (df : DataFrame) : Prop :=
  Forall (fun col => length col = length (df_index df)) (df_columns df).

(** ** Reference quantities of a diagram of reals *)

(** The lives [death - birth]. *)
Definition lives_of (ps : list (R * R)) : list R :=
  map (fun p => snd p - fst p) ps.

Definition tag_sign (t : tag) : R :=
  match t with
  | Birth => 1
  | Death => -1
  end.

(** The births and the deaths of a diagram, tagged, in the order of
    [allPts]. *)
Definition tagged_points (ps : list (R * R)) : list (R * tag) :=
  map (fun p => (fst p, Birth)) ps ++ map (fun p => (snd p, Death)) ps.

(** Order of the tagged points by their coordinate. *)
Definition point_leb (a b : R * tag) : bool := negb (Rltb (fst b) (fst a)).

Definition inject_point (q : R * tag) : val * tag := (Fin (fst q), snd q).

(** The deaths of consecutive rows do not decrease. *)
Definition death_leb (r s : row) : Prop := sort_leb (snd r) (snd s) = true.

Definition birth_leb (r s : row) : Prop := sort_leb (fst r) (fst s) = true.

(** ** Ordered lists *)

(** The non-strict and the strict order of a boolean comparison. *)
Definition le_of {A : Type} (leb : A -> A -> bool) (a b : A) : Prop :=
  leb a b = true.

Definition lt_of {A : Type} (leb : A -> A -> bool) (a b : A) : Prop :=
  leb a b = true /\ a <> b.

(** Every element is related to all the elements after it. *)
Inductive ordered {A : Type} (R : A -> A -> Prop) : list A -> Prop :=
| ordered_nil : ordered R []
| ordered_cons a l : Forall (R a) l -> ordered R l -> ordered R (a :: l).

(** * Properties *)

(** ** Segmenter *)

Section Segmenter.

Context {A : Type}.

Lemma py_range_pos (stop step : Z) :
  (1 <= step)%Z ->
  py_range 0 stop step =
  ret (map (fun k => (Z.of_nat k * step)%Z)
           (seq 0 (Z.to_nat ((stop + step - 1) / step)))).
Proof.
  intros Hs. unfold py_range.
  destruct (Z.eqb_spec step 0) as [E|_]; [lia|].
  destruct (Z.ltb_spec 0 step) as [_|E]; [|lia].
  f_equal. replace (stop - 0 + step - 1)%Z with (stop + step - 1)%Z by lia.
  apply map_ext. intros k. lia.
Qed.

Lemma window_count (n len step : Z) :
  (len <= n)%Z -> (1 <= step)%Z ->
  ((n - len + 1 + step - 1) / step = (n - len) / step + 1)%Z.
Proof.
  intros Hl Hs.
  replace (n - len + 1 + step - 1)%Z with ((n - len) + 1 * step)%Z by lia.
  rewrite Z.div_add by lia. reflexivity.
Qed.

Lemma offset_in_bounds (n len step : Z) (k : nat) :
  (len <= n)%Z -> (1 <= step)%Z ->
  (k < Z.to_nat ((n - len) / step + 1))%nat ->
  (0 <= Z.of_nat k * step /\ Z.of_nat k * step + len <= n)%Z.
Proof.
  intros Hl Hs Hk.
  assert (Hq : (0 <= (n - len) / step)%Z) by (apply Z.div_pos; lia).
  assert (Hk' : (Z.of_nat k <= (n - len) / step)%Z) by lia.
  assert (Hm : (step * ((n - len) / step) <= n - len)%Z)
    by (apply Z.mul_div_le; lia).
  split; [nia|].
  assert ((Z.of_nat k * step <= step * ((n - len) / step))%Z) by nia.
  lia.
Qed.

Lemma py_slice_inside (y : list A) (i len : Z) :
  (0 <= i)%Z -> (0 <= len)%Z -> (i + len <= Z.of_nat (length y))%Z ->
  py_slice y i (i + len) = firstn (Z.to_nat len) (skipn (Z.to_nat i) y).
Proof.
  intros Hi Hl Hb. unfold py_slice, slice_bound.
  destruct (Z.ltb_spec i 0) as [E|_]; [lia|].
  destruct (Z.ltb_spec (i + len) 0) as [E|_]; [lia|].
  rewrite (Z.min_r _ i) by lia. rewrite (Z.min_r _ (i + len)) by lia.
  rewrite !Z.max_r by lia.
  replace (i + len - i)%Z with len by lia. reflexivity.
Qed.

(** C6. For [1 <= length <= len(sequence)] and [shift >= 1] the segmenter
    returns [floor((len(sequence) - length) / shift) + 1] subwindows; the
    [k]-th one is made of the [length] consecutive samples that start at
    offset [k * shift]. *)
Theorem sliding_windows_count_and_content
    (y : list A) (len shift : Z) :
  (1 <= len <= Z.of_nat (length y))%Z ->
  (1 <= shift)%Z ->
  exists ws,
    sliding_windows y len shift = ret ws /\
    Z.of_nat (length ws) = ((Z.of_nat (length y) - len) / shift + 1)%Z /\
    forall k, (k < length ws)%nat ->
      nth k ws [] =
        firstn (Z.to_nat len) (skipn (Z.to_nat (Z.of_nat k * shift)) y) /\
      length (nth k ws []) = Z.to_nat len.
Proof.
  intros [Hl1 Hl2] Hs.
  unfold sliding_windows.
  set (n := Z.of_nat (length y)) in *.
  assert (Hq : (0 <= (n - len) / shift)%Z) by (apply Z.div_pos; lia).
  rewrite py_range_pos by assumption. cbn [bind ret].
  rewrite window_count by lia.
  eexists. split; [reflexivity|].
  rewrite !length_map, length_seq.
  split; [lia|].
  intros k Hk.
  destruct (offset_in_bounds n len shift k ltac:(lia) Hs Hk) as [Ho1 Ho2].
  rewrite map_map.
  rewrite (nth_indep _ [] (py_slice y (Z.of_nat 0 * shift)
                             (Z.of_nat 0 * shift + len)))
    by (rewrite length_map, length_seq; exact Hk).
  rewrite (map_nth (fun x => py_slice y (Z.of_nat x * shift)
                               (Z.of_nat x * shift + len))).
  rewrite seq_nth by exact Hk. cbn [Nat.add].
  rewrite py_slice_inside by (fold n; lia).
  split; [reflexivity|].
  rewrite length_firstn, length_skipn. fold n in Ho2. lia.
Qed.

End Segmenter.

(** Witness for C6: a sequence of five samples, length 2, shift 2. *)
Lemma sliding_windows_count_and_content_witness :
  exists ws,
    sliding_windows [1; 2; 3; 4; 5]%Z 2 2 = ret ws /\
    Z.of_nat (length ws) = ((Z.of_nat 5 - 2) / 2 + 1)%Z /\
    forall k, (k < length ws)%nat ->
      nth k ws [] =
        firstn (Z.to_nat 2)
               (skipn (Z.to_nat (Z.of_nat k * 2)) [1; 2; 3; 4; 5]%Z) /\
      length (nth k ws []) = Z.to_nat 2.
Proof.
  apply (sliding_windows_count_and_content [1; 2; 3; 4; 5]%Z 2 2);
    simpl; lia.
Defined.

Section SegmenterErrors.

Context {A : Type}.

Lemma py_range_total (start stop step : Z) :
  step <> 0%Z -> exists l, py_range start stop step = ret l.
Proof.
  intros Hs. unfold py_range.
  destruct (Z.eqb_spec step 0) as [E|_]; [contradiction|].
  destruct (0 <? step)%Z; eexists; reflexivity.
Qed.

(** C9, as the code behaves.  The segmenter checks nothing itself: a shift
    of [0] raises the [ValueError] of [range]; every other configuration
    returns normally, and a length greater than the sequence (with a
    positive shift) returns the empty list of subwindows. *)
Theorem sliding_windows_configuration
    (y : list A) (len shift : Z) :
  (shift = 0%Z -> sliding_windows y len shift = raise ValueError) /\
  (shift <> 0%Z -> exists ws, sliding_windows y len shift = ret ws) /\
  ((1 <= shift)%Z -> (Z.of_nat (length y) < len)%Z ->
   sliding_windows y len shift = ret []).
Proof.
  repeat split.
  - intros ->. reflexivity.
  - intros Hs. unfold sliding_windows.
    destruct (py_range_total 0 (Z.of_nat (length y) - len + 1) shift Hs)
      as [l ->].
    eexists. reflexivity.
  - intros Hs Hl. unfold sliding_windows.
    rewrite py_range_pos by assumption.
    replace (Z.to_nat ((Z.of_nat (length y) - len + 1 + shift - 1) / shift))
      with 0%nat; [reflexivity|].
    assert (((Z.of_nat (length y) - len + 1 + shift - 1) / shift <= 0)%Z).
    { apply Z.lt_succ_r. apply Z.div_lt_upper_bound; lia. }
    lia.
Qed.

End SegmenterErrors.

(** Witness for C9: a zero shift, a negative length and a length that is
    too large, on a sequence of three samples. *)
Lemma sliding_windows_configuration_witness :
  sliding_windows [1; 2; 3]%Z 2 0 = raise ValueError /\
  (exists ws, sliding_windows [1; 2; 3]%Z (-1) 1 = ret ws) /\
  sliding_windows [1; 2; 3]%Z 5 1 = ret [].
Proof.
  split; [|split].
  - apply (sliding_windows_configuration [1; 2; 3]%Z 2 0). reflexivity.
  - apply (sliding_windows_configuration [1; 2; 3]%Z (-1) 1). lia.
  - apply (sliding_windows_configuration [1; 2; 3]%Z 5 1); simpl; lia.
Defined.

(** C9 as stated fails: a length greater than the sequence is not
    rejected, the segmenter returns the empty list and raises nothing;
    a length of zero is not rejected either. *)
Lemma sliding_windows_too_long_no_error :
  sliding_windows [1; 2; 3]%Z 5 1 = ret [] /\
  sliding_windows [1; 2; 3]%Z 0 2 = ret [[]; []] /\
  ~ (exists e, sliding_windows [1; 2; 3]%Z 5 1 = raise e).
Proof.
  split; [reflexivity|]. split; [reflexivity|].
  intros [e He]. discriminate He.
Qed.

(** ** Evaluating comparisons and arithmetic *)

Lemma Rltb_true (x y : R) : x < y -> Rltb x y = true.
Proof. intros H. unfold Rltb. destruct (Rlt_dec x y); [reflexivity|lra]. Qed.

Lemma Rltb_false (x y : R) : y <= x -> Rltb x y = false.
Proof. intros H. unfold Rltb. destruct (Rlt_dec x y); [lra|reflexivity]. Qed.

Lemma Reqb_true (x y : R) : x = y -> Reqb x y = true.
Proof.
  intros H. unfold Reqb. destruct (Req_dec_T x y); [reflexivity|contradiction].
Qed.

Lemma Reqb_false (x y : R) : x <> y -> Reqb x y = false.
Proof.
  intros H. unfold Reqb. destruct (Req_dec_T x y); [contradiction|reflexivity].
Qed.

Lemma Reqb_refl (x : R) : Reqb x x = true.
Proof. apply Reqb_true. reflexivity. Qed.

Lemma sqrt2_pos : 0 < sqrt 2.
Proof. apply sqrt_lt_R0. lra. Qed.

(** Decides the real comparisons of the goal that [lra] can settle. *)
Ltac rcompare :=
  repeat match goal with
  | |- context [Rltb ?a ?b] =>
      first [ rewrite (Rltb_true a b) by lra
            | rewrite (Rltb_false a b) by lra ]
  | |- context [Reqb ?a ?b] =>
      first [ rewrite (Reqb_true a b) by lra
            | rewrite (Reqb_false a b) by lra ]
  end.

Lemma vdiv_sqrt2 (x : R) : vdiv (Fin x) (Fin (sqrt 2)) = Fin (x / sqrt 2).
Proof.
  pose proof sqrt2_pos. cbn [vdiv]. rcompare. reflexivity.
Qed.

Lemma veqb_fin_refl (x : R) : veqb (Fin x) (Fin x) = true.
Proof. apply Reqb_refl. Qed.

(** ** Empty diagrams *)

(** C1. A diagram that is empty once the rows with an infinite entry are
    discarded (in particular the empty diagram) yields the feature vector
    of seven zeros: the lives are the sentinel [[0]], and both area
    functions return [[0, 0]]. *)
Theorem features_of_empty_diagram (d : diagram) :
  drop_inf_rows d = [] ->
  get_diagram_lives (drop_inf_rows d) = [Fin 0] /\
  get_area_under_betti_curve (drop_inf_rows d) = (Fin 0, Fin 0) /\
  get_area_under_landscape (drop_inf_rows d) = ret (Fin 0, Fin 0) /\
  get_diagram_features d =
    ret [Fin 0; Fin 0; Fin 0; Fin 0; Fin 0; Fin 0; Fin 0].
Proof.
  intros H. unfold get_diagram_features. rewrite H.
  repeat split.
  cbn [get_diagram_lives py_sum py_max fold_left vadd bind ret].
  unfold get_diagram_entropy.
  cbn [map vabs py_max fold_left bind ret veqb].
  rewrite Rabs_R0, Reqb_refl.
  cbn [get_area_under_betti_curve get_area_under_landscape bind ret].
  rewrite !vdiv_sqrt2. unfold ret.
  repeat f_equal; unfold Rdiv; ring.
Qed.

(** Witness for C1: one row whose death is infinite. *)
Lemma features_of_empty_diagram_witness :
  get_diagram_lives (drop_inf_rows [(Fin 0, PInf)]) = [Fin 0] /\
  get_area_under_betti_curve (drop_inf_rows [(Fin 0, PInf)])
    = (Fin 0, Fin 0) /\
  get_area_under_landscape (drop_inf_rows [(Fin 0, PInf)])
    = ret (Fin 0, Fin 0) /\
  get_diagram_features [(Fin 0, PInf)] =
    ret [Fin 0; Fin 0; Fin 0; Fin 0; Fin 0; Fin 0; Fin 0].
Proof.
  apply (features_of_empty_diagram [(Fin 0, PInf)]). reflexivity.
Defined.

(** ** Sorting *)

Section Sorting.

Context {A : Type}.
Variable leb : A -> A -> bool.

Lemma insert_by_In (a x : A) (l : list A) :
  In x (insert_by leb a l) <-> x = a \/ In x l.
Proof.
  induction l as [|y t IH]; cbn [insert_by].
  - simpl. intuition auto.
  - destruct (leb a y); simpl in *; rewrite ?IH; intuition auto.
Qed.

Lemma sort_by_In (x : A) (l : list A) : In x (sort_by leb l) <-> In x l.
Proof.
  induction l as [|a t IH]; [reflexivity|].
  cbn [sort_by fold_right]. fold (sort_by leb t).
  rewrite insert_by_In, IH. simpl. intuition auto.
Qed.

Lemma insert_by_length (a : A) (l : list A) :
  length (insert_by leb a l) = S (length l).
Proof.
  induction l as [|y t IH]; cbn [insert_by]; [reflexivity|].
  destruct (leb a y); simpl; rewrite ?IH; reflexivity.
Qed.

Lemma sort_by_length (l : list A) : length (sort_by leb l) = length l.
Proof.
  induction l as [|a t IH]; [reflexivity|].
  cbn [sort_by fold_right]. fold (sort_by leb t).
  rewrite insert_by_length, IH. reflexivity.
Qed.

Lemma sort_by_nonempty (l : list A) : l <> [] -> sort_by leb l <> [].
Proof.
  intros Hl Hs. apply Hl. apply length_zero_iff_nil.
  rewrite <- sort_by_length, Hs. reflexivity.
Qed.

Lemma sort_by_singleton (a : A) : sort_by leb [a] = [a].
Proof. reflexivity. Qed.

(** The order is total, transitive and antisymmetric. *)
Hypothesis leb_total : forall a b, leb a b = true \/ leb b a = true.
Hypothesis leb_trans :
  forall a b c, leb a b = true -> leb b c = true -> leb a c = true.
Hypothesis leb_antisym : forall a b, leb a b = true -> leb b a = true -> a = b.


Lemma insert_by_ordered (a : A) (l : list A) :
  ordered (le_of leb) l -> ordered (le_of leb) (insert_by leb a l).
Proof.
  induction 1 as [|y t Hy Ht IH]; cbn [insert_by].
  - constructor; constructor.
  - destruct (leb a y) eqn:E.
    + constructor; [|constructor; assumption].
      constructor; [exact E|].
      eapply Forall_impl; [|exact Hy]. intros z Hz. exact (leb_trans _ _ _ E Hz).
    + constructor; [|exact IH].
      apply Forall_forall. intros z Hz. apply insert_by_In in Hz.
      destruct Hz as [->|Hz].
      * destruct (leb_total a y) as [H|H]; [congruence|exact H].
      * rewrite Forall_forall in Hy. auto.
Qed.

Lemma sort_by_ordered (l : list A) : ordered (le_of leb) (sort_by leb l).
Proof.
  induction l as [|a t IH]; [constructor|].
  cbn [sort_by fold_right]. apply insert_by_ordered. exact IH.
Qed.

(** A strictly ordered list is determined by its elements. *)
Lemma strictly_ordered_unique (l l' : list A) :
  ordered (lt_of leb) l -> ordered (lt_of leb) l' ->
  (forall x, In x l <-> In x l') -> l = l'.
Proof.
  intros Hl. revert l'.
  induction Hl as [|a t Ha Ht IH]; intros l' Hl' Hin.
  - destruct l' as [|b t']; [reflexivity|].
    exfalso. apply (Hin b). left. reflexivity.
  - destruct Hl' as [|b t' Hb Ht'].
    + exfalso. apply (Hin a). left. reflexivity.
    + rewrite Forall_forall in Ha, Hb.
      assert (Hab : a = b).
      { destruct (proj1 (Hin a) (or_introl eq_refl)) as [E|E]; [auto|].
        destruct (proj2 (Hin b) (or_introl eq_refl)) as [F|F]; [auto|].
        destruct (Ha _ F) as [H1 N1]. destruct (Hb _ E) as [H2 _].
        exact (leb_antisym _ _ H1 H2). }
      subst b. f_equal. apply IH; [exact Ht'|].
      intros x. split; intros Hx.
      * destruct (proj1 (Hin x) (or_intror Hx)) as [E|E]; [|exact E].
        subst x. destruct (Ha _ Hx) as [_ N]. contradiction.
      * destruct (proj2 (Hin x) (or_intror Hx)) as [E|E]; [|exact E].
        subst x. destruct (Hb _ Hx) as [_ N]. contradiction.
Qed.

End Sorting.

(** ** The sorting order of values and rows *)

Lemma sort_leb_total (a b : val) : sort_leb a b = true \/ sort_leb b a = true.
Proof.
  destruct a as [x| | |], b as [y| | |]; cbn [sort_leb]; auto.
  unfold Rltb. destruct (Rlt_dec y x), (Rlt_dec x y); simpl; auto; lra.
Qed.

Lemma sort_leb_trans (a b c : val) :
  sort_leb a b = true -> sort_leb b c = true -> sort_leb a c = true.
Proof.
  destruct a as [x| | |], b as [y| | |], c as [z| | |];
    cbn [sort_leb]; try congruence.
  unfold Rltb.
  destruct (Rlt_dec y x), (Rlt_dec z y), (Rlt_dec z x);
    simpl; try congruence; lra.
Qed.

Lemma sort_leb_antisym (a b : val) :
  sort_leb a b = true -> sort_leb b a = true -> a = b.
Proof.
  destruct a as [x| | |], b as [y| | |]; cbn [sort_leb]; try congruence.
  unfold Rltb. destruct (Rlt_dec y x), (Rlt_dec x y); simpl; try congruence.
  intros _ _. f_equal. lra.
Qed.

Lemma sort_leb_false (a b : val) : sort_leb b a = false -> sort_leb a b = true.
Proof.
  intros H. destruct (sort_leb_total a b) as [E|E]; [exact E|congruence].
Qed.

Lemma row_leb_spec (r s : row) :
  row_leb r s = true <->
  sort_leb (fst s) (fst r) = false \/
  (sort_leb (fst r) (fst s) = true /\ sort_leb (snd r) (snd s) = true).
Proof.
  unfold row_leb, sort_ltb.
  rewrite orb_true_iff, andb_true_iff, negb_true_iff. reflexivity.
Qed.

Lemma row_leb_total (r s : row) : row_leb r s = true \/ row_leb s r = true.
Proof.
  rewrite !row_leb_spec.
  destruct (sort_leb (fst s) (fst r)) eqn:E1; [|auto].
  destruct (sort_leb (fst r) (fst s)) eqn:E2; [|auto].
  destruct (sort_leb_total (snd r) (snd s)); auto.
Qed.

Lemma row_leb_trans (r s t : row) :
  row_leb r s = true -> row_leb s t = true -> row_leb r t = true.
Proof.
  rewrite !row_leb_spec.
  intros [H1|[H1 H2]] [K1|[K1 K2]].
  - left. destruct (sort_leb (fst t) (fst r)) eqn:E; [|reflexivity].
    pose proof (sort_leb_false _ _ H1) as H.
    rewrite (sort_leb_trans _ _ _ E H) in K1. discriminate.
  - left. destruct (sort_leb (fst t) (fst r)) eqn:E; [|reflexivity].
    rewrite (sort_leb_trans _ _ _ K1 E) in H1. discriminate.
  - left. destruct (sort_leb (fst t) (fst r)) eqn:E; [|reflexivity].
    rewrite (sort_leb_trans _ _ _ E H1) in K1. discriminate.
  - right. split; eapply sort_leb_trans; eassumption.
Qed.

Lemma row_leb_antisym (r s : row) :
  row_leb r s = true -> row_leb s r = true -> r = s.
Proof.
  rewrite !row_leb_spec.
  intros [H1|[H1 H2]] [K1|[K1 K2]]; try congruence.
  - rewrite (sort_leb_false _ _ H1) in K1. discriminate.
  - destruct r, s; simpl in *. f_equal; apply sort_leb_antisym; assumption.
Qed.

Lemma veqb_finite (a b : val) : is_finite b -> (veqb a b = true <-> a = b).
Proof.
  destruct b as [y| | |]; simpl; try contradiction. intros _.
  destruct a as [x| | |]; simpl; try (split; congruence).
  unfold Reqb. destruct (Req_dec_T x y); split; congruence.
Qed.

Lemma row_eqb_finite (r s : row) :
  finite_row s -> (row_eqb r s = true <-> r = s).
Proof.
  intros [H1 H2]. unfold row_eqb. rewrite andb_true_iff.
  rewrite (veqb_finite _ _ H1), (veqb_finite _ _ H2).
  destruct r, s; simpl. split; [intros [-> ->]; reflexivity|].
  intros E; inversion E; auto.
Qed.

(** ** [np.unique] on finite rows *)

Lemma drop_repeats_strict (x : row) (t : list row) :
  ordered (le_of row_leb) (x :: t) ->
  Forall finite_row (x :: t) ->
  ordered (lt_of row_leb) (x :: drop_repeats x t) /\
  (forall z, In z (x :: drop_repeats x t) <-> In z (x :: t)).
Proof.
  revert x. induction t as [|y t IH]; intros x Ho Hf.
  - split; [|reflexivity]. constructor; constructor.
  - inversion Ho as [|? ? Hx Hyt]; subst.
    inversion Hf as [|? ? Fx Fyt]; subst.
    destruct (IH y Hyt Fyt) as [IHo IHi].
    cbn [drop_repeats].
    destruct (row_eqb y x) eqn:E.
    + apply (row_eqb_finite _ _ Fx) in E. subst y.
      split; [exact IHo|].
      intros z. rewrite IHi. simpl. intuition auto.
    + split.
      * constructor; [|exact IHo].
        apply Forall_forall. intros z Hz. apply IHi in Hz.
        rewrite Forall_forall in Hx.
        split; [apply Hx; exact Hz|].
        intros ->. destruct Hz as [Hz|Hz].
        -- subst y. rewrite (proj2 (row_eqb_finite z z Fx) eq_refl) in E.
           discriminate.
        -- inversion Hyt as [|? ? Hy _]; subst.
           rewrite Forall_forall in Hy.
           assert (y = z).
           { apply row_leb_antisym; [apply Hy; exact Hz|].
             apply Hx. left. reflexivity. }
           subst y. rewrite (proj2 (row_eqb_finite z z Fx) eq_refl) in E.
           discriminate.
      * intros z. simpl. simpl in IHi. rewrite IHi. reflexivity.
Qed.

Lemma sort_by_Forall {A : Type} (leb : A -> A -> bool) (P : A -> Prop)
    (l : list A) :
  Forall P l -> Forall P (sort_by leb l).
Proof.
  rewrite !Forall_forall. intros H x Hx. apply H.
  apply (sort_by_In leb). exact Hx.
Qed.

Lemma np_unique_rows_strict (d : list row) :
  Forall finite_row d ->
  ordered (lt_of row_leb) (np_unique_rows d) /\
  (forall z, In z (np_unique_rows d) <-> In z d).
Proof.
  intros Hf. unfold np_unique_rows.
  pose proof (sort_by_ordered row_leb row_leb_total row_leb_trans d) as Ho.
  pose proof (sort_by_Forall row_leb _ _ Hf) as Hs.
  pose proof (sort_by_In row_leb) as Hin.
  destruct (sort_by row_leb d) as [|x t] eqn:E.
  - split; [constructor|]. intros z. rewrite <- (Hin z d), E. reflexivity.
  - destruct (drop_repeats_strict x t Ho Hs) as [H1 H2].
    split; [exact H1|]. intros z. rewrite H2, <- (Hin z d), E. reflexivity.
Qed.

(** The sorted distinct rows depend only on the set of rows. *)
Lemma np_unique_rows_ext (d d' : list row) :
  Forall finite_row d -> Forall finite_row d' ->
  (forall z, In z d <-> In z d') ->
  np_unique_rows d = np_unique_rows d'.
Proof.
  intros Hf Hf' Hin.
  destruct (np_unique_rows_strict d Hf) as [H1 H2].
  destruct (np_unique_rows_strict d' Hf') as [K1 K2].
  apply (strictly_ordered_unique row_leb row_leb_antisym); try assumption.
  intros z. rewrite H2, K2. apply Hin.
Qed.

(** ** Landscape areas *)

Lemma getLandscapePoints_ext (d d' : diagram) :
  finite_diagram d -> finite_diagram d' ->
  (forall z, In z d <-> In z d') ->
  getLandscapePoints d = getLandscapePoints d'.
Proof.
  intros Hf Hf' Hin. unfold getLandscapePoints.
  rewrite (np_unique_rows_ext d d' Hf Hf' Hin). reflexivity.
Qed.

Lemma get_area_under_landscape_ext (d d' : diagram) :
  d <> [] -> d' <> [] ->
  finite_diagram d -> finite_diagram d' ->
  (forall z, In z d <-> In z d') ->
  get_area_under_landscape d = get_area_under_landscape d'.
Proof.
  intros Hn Hn' Hf Hf' Hin.
  destruct d as [|r t]; [contradiction|].
  destruct d' as [|r' t']; [contradiction|].
  unfold get_area_under_landscape, getLandscapeReturnPoints.
  rewrite (getLandscapePoints_ext _ _ Hf Hf' Hin). reflexivity.
Qed.

(** C4. On a non-empty diagram of finite pairs the landscape areas are
    unchanged by a permutation of the rows and by the duplication of a
    row. *)
Theorem landscape_area_invariant (d : diagram) :
  d <> [] -> finite_diagram d ->
  (forall d', Permutation d d' ->
     get_area_under_landscape d' = get_area_under_landscape d) /\
  (forall d1 r d2, d = d1 ++ r :: d2 ->
     get_area_under_landscape (d1 ++ r :: r :: d2)
       = get_area_under_landscape d).
Proof.
  intros Hn Hf. split.
  - intros d' Hp. apply get_area_under_landscape_ext.
    + intros ->. apply Hn. apply Permutation_nil. symmetry. exact Hp.
    + exact Hn.
    + unfold finite_diagram. rewrite Forall_forall. intros z Hz.
      unfold finite_diagram in Hf. rewrite Forall_forall in Hf. apply Hf.
      apply (Permutation_in z (Permutation_sym Hp)). exact Hz.
    + exact Hf.
    + intros z. split; apply Permutation_in;
        [apply Permutation_sym|]; exact Hp.
  - intros d1 r d2 ->. apply get_area_under_landscape_ext.
    + destruct d1; discriminate.
    + exact Hn.
    + unfold finite_diagram in *. rewrite Forall_forall in *.
      intros z Hz. apply Hf. rewrite in_app_iff in *. simpl in *.
      intuition auto.
    + exact Hf.
    + intros z. rewrite !in_app_iff. simpl. intuition auto.
Qed.

(** Witness for C4: two overlapping pairs, swapped and with the second
    one repeated. *)
Lemma landscape_area_invariant_witness :
  (forall d', Permutation [(Fin 0, Fin 2); (Fin 1, Fin 3)] d' ->
     get_area_under_landscape d'
       = get_area_under_landscape [(Fin 0, Fin 2); (Fin 1, Fin 3)]) /\
  (forall d1 r d2, [(Fin 0, Fin 2); (Fin 1, Fin 3)] = d1 ++ r :: d2 ->
     get_area_under_landscape (d1 ++ r :: r :: d2)
       = get_area_under_landscape [(Fin 0, Fin 2); (Fin 1, Fin 3)]).
Proof.
  apply (landscape_area_invariant [(Fin 0, Fin 2); (Fin 1, Fin 3)]).
  - discriminate.
  - repeat constructor.
Defined.

(** *** The landscape is defined on diagrams without a [nan] death *)

Lemma drop_repeats_In (x z : row) (t : list row) :
  In z (drop_repeats x t) -> In z t.
Proof.
  revert x. induction t as [|y t IH]; intros x; cbn [drop_repeats]; [auto|].
  destruct (row_eqb y x); simpl; intros H.
  - right. eapply IH. exact H.
  - destruct H as [H|H]; [auto|]. right. eapply IH. exact H.
Qed.

Lemma np_unique_rows_In (z : row) (d : list row) :
  In z (np_unique_rows d) -> In z d.
Proof.
  unfold np_unique_rows. intros H. apply (sort_by_In row_leb).
  destruct (sort_by row_leb d) as [|x t]; [contradiction|].
  destruct H as [H|H]; [left; exact H|right].
  eapply drop_repeats_In. exact H.
Qed.

Lemma np_unique_rows_nonempty (d : list row) :
  d <> [] -> np_unique_rows d <> [].
Proof.
  intros Hn. unfold np_unique_rows.
  pose proof (sort_by_nonempty row_leb d Hn) as Hs.
  destruct (sort_by row_leb d); [contradiction|discriminate].
Qed.

Lemma veqb_refl_not_nan (a : val) : np_isnan a = false -> veqb a a = true.
Proof.
  destruct a; simpl; try congruence. intros _. apply Reqb_refl.
Qed.

Lemma getLandscapePoints_nonempty (d : diagram) :
  d <> [] -> Forall death_not_nan d -> getLandscapePoints d <> [].
Proof.
  intros Hn Hd. unfold getLandscapePoints, np_lexsort_rows.
  pose proof (sort_by_nonempty row_leb _ (np_unique_rows_nonempty d Hn)) as Hs.
  pose proof (sort_by_In row_leb) as Hin.
  destruct (sort_by row_leb (np_unique_rows d)) as [|y t] eqn:E;
    [contradiction|].
  assert (Hy : death_not_nan y).
  { rewrite Forall_forall in Hd. apply Hd. apply np_unique_rows_In.
    apply (Hin y (np_unique_rows d)). rewrite E. left. reflexivity. }
  cbn [map np_maximum_accumulate combine mask_select].
  rewrite (veqb_refl_not_nan _ Hy). discriminate.
Qed.

Lemma get_area_under_landscape_returns (d : diagram) :
  Forall death_not_nan d ->
  exists a, get_area_under_landscape d = ret a.
Proof.
  intros Hd. destruct d as [|r t]; [eexists; reflexivity|].
  unfold get_area_under_landscape, getLandscapeReturnPoints.
  pose proof (getLandscapePoints_nonempty (r :: t) ltac:(discriminate) Hd) as Hn.
  assert (Hs : argsort_col0 (getLandscapePoints (r :: t)) <> [])
    by (apply sort_by_nonempty; exact Hn).
  destruct (argsort_col0 (getLandscapePoints (r :: t))) as [|[b0 e0] u];
    [contradiction|].
  cbn [bind ret].
  destruct (landscape_sweep _ _ _) as [l1 l2].
  eexists. reflexivity.
Qed.
(** ** A single finite pair *)

(** Unfolds the model on concrete lists, leaving the real arithmetic. *)
Ltac veval :=
  cbn [drop_inf_rows filter fst snd np_isinf np_isnan orb negb andb
       get_diagram_lives map py_sum py_max fold_left vadd vsub vneg vmul vabs
       bind ret raise veqb vgtb app combine sort_by fold_right insert_by
       sort_leb betti_sweep np_maximum_accumulate accumulate_from np_maximum
       mask_select return_points_loop half l2areaUnderLine landscape_sweep
       drop_repeats row_leb row_eqb sort_ltb].




Lemma half_fin (x : R) : half (Fin x) = Fin (x / 2).
Proof. unfold half. cbn [vdiv]. rcompare. reflexivity. Qed.

Lemma vdiv_fin (x y : R) : y <> 0 -> vdiv (Fin x) (Fin y) = Fin (x / y).
Proof. intros H. cbn [vdiv]. rewrite (Reqb_false y 0 H). reflexivity. Qed.

(** Evaluates the model where the comparisons are between reals that
    [lra] can order. *)
Ltac vcompute :=
  repeat (progress (veval; unfold row_leb, row_eqb, sort_ltb;
                    rewrite ?half_fin; veval; rcompare)).




(** ** Shape of the feature vector *)

Lemma get_diagram_lives_nonempty (d : diagram) : get_diagram_lives d <> [].
Proof. destruct d; discriminate. Qed.

Lemma py_max_returns (xs : list val) :
  xs <> [] -> exists m, py_max xs = ret m.
Proof.
  destruct xs as [|x t]; [contradiction|]. intros _. eexists. reflexivity.
Qed.

Lemma get_diagram_entropy_returns (lives : list val) :
  lives <> [] -> exists e, get_diagram_entropy lives = ret e.
Proof.
  intros Hl. unfold get_diagram_entropy.
  destruct (py_max_returns (map vabs lives)) as [m ->].
  { destruct lives; [contradiction|discriminate]. }
  cbn [bind ret]. destruct (veqb m (Fin 0)); eexists; reflexivity.
Qed.

(** When no death is [nan] after the infinity filter, every step returns
    and the seven features are those computed by the helper functions. *)
Lemma get_diagram_features_returns (d : diagram) :
  Forall death_not_nan (drop_inf_rows d) ->
  exists m e b1 b2 l1 l2,
    py_max (get_diagram_lives (drop_inf_rows d)) = ret m /\
    get_diagram_entropy (get_diagram_lives (drop_inf_rows d)) = ret e /\
    get_area_under_betti_curve (drop_inf_rows d) = (b1, b2) /\
    get_area_under_landscape (drop_inf_rows d) = ret (l1, l2) /\
    get_diagram_features d =
      ret [vdiv (py_sum (get_diagram_lives (drop_inf_rows d))) (Fin (sqrt 2));
           vdiv m (Fin (sqrt 2)); e; b1; b2; l1; l2].
Proof.
  intros Hd. unfold get_diagram_features.
  set (d' := drop_inf_rows d) in *.
  destruct (py_max_returns _ (get_diagram_lives_nonempty d')) as [m Hm].
  destruct (get_diagram_entropy_returns _ (get_diagram_lives_nonempty d'))
    as [e He].
  destruct (get_area_under_betti_curve d') as [b1 b2] eqn:Hb.
  destruct (get_area_under_landscape_returns d' Hd) as [[l1 l2] Hl].
  exists m, e, b1, b2, l1, l2.
  rewrite Hm, He, Hl. repeat split; reflexivity.
Qed.

(** ** Sums and maxima of finite values *)

Lemma fold_left_vadd_fin (l : list R) (a : R) :
  fold_left vadd (map Fin l) (Fin a) = Fin (fold_left Rplus l a).
Proof.
  revert a. induction l as [|x t IH]; intros a; [reflexivity|].
  cbn [map fold_left vadd]. apply IH.
Qed.

Lemma fold_left_Rplus (l : list R) (a : R) :
  fold_left Rplus l a = a + Rsum l.
Proof.
  revert a. induction l as [|x t IH]; intros a; cbn [fold_left Rsum fold_right].
  - ring.
  - rewrite IH. fold (Rsum t). ring.
Qed.

Lemma py_sum_fin (l : list R) : py_sum (map Fin l) = Fin (Rsum l).
Proof.
  unfold py_sum. rewrite fold_left_vadd_fin, fold_left_Rplus.
  f_equal. ring.
Qed.

Lemma fold_left_vadd_nan (l : list val) : fold_left vadd l NaN = NaN.
Proof. induction l as [|x t IH]; [reflexivity|]. exact IH. Qed.

Lemma vadd_nan_r (a : val) : vadd a NaN = NaN.
Proof. destruct a; reflexivity. Qed.

Lemma fold_left_vadd_In_nan (l : list val) (a : val) :
  In NaN l -> fold_left vadd l a = NaN.
Proof.
  revert a. induction l as [|x t IH]; intros a; [contradiction|].
  intros [->|H]; cbn [fold_left].
  - rewrite vadd_nan_r. apply fold_left_vadd_nan.
  - apply IH. exact H.
Qed.

Lemma fold_left_vgtb_fin (l : list R) (a : R) :
  fold_left (fun m y => if vgtb y m then y else m) (map Fin l) (Fin a)
  = Fin (Rmax_left l a).
Proof.
  revert a. unfold Rmax_left.
  induction l as [|x t IH]; intros a; [reflexivity|].
  cbn [map fold_left vgtb].
  destruct (Rltb a x); apply IH.
Qed.

Lemma Rmax_left_ge (l : list R) (a : R) :
  a <= Rmax_left l a /\ Forall (fun x => x <= Rmax_left l a) l.
Proof.
  revert a. unfold Rmax_left.
  induction l as [|x t IH]; intros a; cbn [fold_left].
  - split; [lra|constructor].
  - destruct (Rlt_dec a x) as [E|E].
    + rewrite (Rltb_true _ _ E).
      destruct (IH x) as [H1 H2]. split; [lra|]. constructor; assumption.
    + rewrite (Rltb_false a x) by lra.
      destruct (IH a) as [H1 H2]. split; [lra|]. constructor; [lra|assumption].
Qed.

Lemma Rmax_left_In (l : list R) (a : R) :
  Rmax_left l a = a \/ In (Rmax_left l a) l.
Proof.
  revert a. unfold Rmax_left.
  induction l as [|x t IH]; intros a; cbn [fold_left]; [auto|].
  destruct (Rltb a x).
  - destruct (IH x) as [H|H];
      [right; left; symmetry; exact H|right; right; exact H].
  - destruct (IH a) as [H|H]; [left; exact H|right; right; exact H].
Qed.

(** ** Entropy and zero lives *)

Lemma signed_inf_zero (x : R) : x = 0 -> signed_inf x = NaN.
Proof. intros ->. unfold signed_inf. rcompare. reflexivity. Qed.

(** The entropy term of a zero life is [nan], whatever the total is. *)
Lemma entropy_term_of_zero (s : R) :
  let p := vdiv (Fin 0) (Fin s) in vmul (vneg p) (vlog p) = NaN.
Proof.
  cbn [vdiv]. destruct (Req_dec_T s 0) as [E|E].
  - rewrite (Reqb_true _ _ E). rewrite signed_inf_zero by reflexivity.
    reflexivity.
  - rewrite (Reqb_false _ _ E).
    replace (0 / s) with 0 by (field; exact E).
    cbn [vlog vneg]. rcompare. cbn [vmul].
    apply signed_inf_zero. ring.
Qed.

Lemma py_max_abs_positive (lives : list R) :
  (exists x, In x lives /\ x <> 0) ->
  exists m, py_max (map vabs (map Fin lives)) = ret (Fin m) /\ 0 < m.
Proof.
  intros [x [Hx Hnz]]. destruct lives as [|a t]; [contradiction|].
  cbn [map vabs py_max].
  replace (map vabs (map Fin t)) with (map Fin (map Rabs t))
    by (rewrite !map_map; reflexivity).
  rewrite fold_left_vgtb_fin. eexists. split; [reflexivity|].
  destruct (Rmax_left_ge (map Rabs t) (Rabs a)) as [H1 H2].
  pose proof (Rabs_pos_lt x Hnz) as Hpos.
  destruct Hx as [->|Hx]; [lra|].
  rewrite Forall_forall in H2.
  specialize (H2 (Rabs x) (in_map Rabs _ _ Hx)). lra.
Qed.

(** With a zero life next to a non-zero one, the entropy is [nan]. *)
Lemma entropy_nan_with_zero_life (lives : list R) :
  In 0 lives -> (exists x, In x lives /\ x <> 0) ->
  get_diagram_entropy (map Fin lives) = ret NaN.
Proof.
  intros H0 Hx. unfold get_diagram_entropy.
  destruct (py_max_abs_positive lives Hx) as [m [-> Hm]].
  cbn [bind ret veqb]. rewrite (Reqb_false m 0) by lra.
  rewrite py_sum_fin. unfold ret. f_equal.
  apply fold_left_vadd_In_nan.
  rewrite <- (entropy_term_of_zero (Rsum lives)). cbv zeta.
  apply (in_map (fun p => vmul (vneg p) (vlog p))).
  apply (in_map (fun l => vdiv l (Fin (Rsum lives)))).
  apply (in_map Fin). exact H0.
Qed.

(** C2, at the failing input: for the diagram [[0, 0], [0, 1]] the lives
    are [0] and [1], and the entropy feature is [nan]; the Shannon entropy
    of the normalised lives, with [0 * ln 0] read as [0], is [0]. *)
Theorem entropy_feature_nan_on_zero_life :
  get_diagram_lives (drop_inf_rows [(Fin 0, Fin 0); (Fin 0, Fin 1)])
    = map Fin [0 + - 0; 1 + - 0] /\
  (exists t m b1 b2 l1 l2,
     get_diagram_features [(Fin 0, Fin 0); (Fin 0, Fin 1)]
       = ret [t; m; NaN; b1; b2; l1; l2]) /\
  shannon_entropy [0 / 1; 1 / 1] = 0.
Proof.
  split; [reflexivity|]. split.
  - destruct (get_diagram_features_returns [(Fin 0, Fin 0); (Fin 0, Fin 1)])
      as (m & e & b1 & b2 & l1 & l2 & _ & He & _ & _ & Hf).
    { repeat constructor. }
    change (get_diagram_lives (drop_inf_rows [(Fin 0, Fin 0); (Fin 0, Fin 1)]))
      with (map Fin [0 + - 0; 1 + - 0]) in He.
    rewrite entropy_nan_with_zero_life in He.
    + inversion He; subst e. do 6 eexists. exact Hf.
    + left. ring.
    + exists (1 + - 0). split; [right; left; reflexivity|lra].
  - unfold shannon_entropy. cbn [map Rsum fold_right].
    rewrite (Reqb_true (0 / 1) 0) by lra.
    rewrite (Reqb_false (1 / 1) 0) by lra.
    replace (1 / 1) with 1 by lra. rewrite ln_1. ring.
Qed.

(** ** Lives of pairs with birth above death *)

Lemma drop_inf_rows_finite (ps : list (R * R)) :
  drop_inf_rows (diagram_of ps) = diagram_of ps.
Proof.
  induction ps as [|p t IH]; [reflexivity|].
  unfold drop_inf_rows, diagram_of in *. cbn [map filter fst snd np_isinf orb negb].
  rewrite IH. reflexivity.
Qed.

Lemma diagram_of_death_not_nan (ps : list (R * R)) :
  Forall death_not_nan (diagram_of ps).
Proof.
  induction ps as [|p t IH]; constructor; [reflexivity|exact IH].
Qed.

Lemma get_diagram_lives_finite (ps : list (R * R)) :
  ps <> [] ->
  get_diagram_lives (diagram_of ps)
  = map Fin (map (fun p => snd p + - fst p) ps).
Proof.
  destruct ps as [|p t]; [contradiction|]. intros _.
  unfold diagram_of. cbn [map get_diagram_lives fst snd vsub vneg vadd].
  f_equal. rewrite !map_map. reflexivity.
Qed.

Lemma Rsum_negative (l : list R) :
  l <> [] -> Forall (fun x => x < 0) l -> Rsum l < 0.
Proof.
  intros Hn Hl. induction Hl as [|x t Hx Ht IH]; [contradiction|].
  cbn [Rsum fold_right]. fold (Rsum t).
  destruct t as [|y u]; [simpl; lra|].
  specialize (IH ltac:(discriminate)). lra.
Qed.

Lemma div_sqrt2_negative (x : R) : x < 0 -> x / sqrt 2 < 0.
Proof.
  intros H. pose proof (Rinv_0_lt_compat _ sqrt2_pos) as Hi.
  unfold Rdiv. nra.
Qed.

(** C8, as the code behaves.  The lives are the signed differences
    [death - birth]; no absolute value is taken.  When every pair has its
    birth above its death, total life is the (negative) sum of the lives
    over [sqrt 2] and maximal life is negative too. *)
Theorem lives_are_signed (ps : list (R * R)) :
  ps <> [] ->
  Forall (fun p => snd p < fst p) ps ->
  get_diagram_lives (drop_inf_rows (diagram_of ps))
    = map Fin (map (fun p => snd p + - fst p) ps) /\
  exists t m e b1 b2 l1 l2,
    get_diagram_features (diagram_of ps)
      = ret [Fin t; Fin m; e; b1; b2; l1; l2] /\
    t = Rsum (map (fun p => snd p + - fst p) ps) / sqrt 2 /\
    t < 0 /\ m < 0.
Proof.
  intros Hn Hneg.
  assert (Hl : Forall (fun x => x < 0) (map (fun p => snd p + - fst p) ps)).
  { rewrite Forall_forall in *. intros x Hx.
    apply in_map_iff in Hx. destruct Hx as [p [<- Hp]].
    specialize (Hneg p Hp). lra. }
  rewrite drop_inf_rows_finite.
  split; [apply get_diagram_lives_finite; exact Hn|].
  destruct (get_diagram_features_returns (diagram_of ps))
    as (m & e & b1 & b2 & l1 & l2 & Hm & _ & _ & _ & Hf).
  { rewrite drop_inf_rows_finite. apply diagram_of_death_not_nan. }
  rewrite drop_inf_rows_finite in Hm, Hf.
  rewrite get_diagram_lives_finite in Hm, Hf by exact Hn.
  rewrite py_sum_fin, vdiv_sqrt2 in Hf.
  destruct (map (fun p => snd p + - fst p) ps) as [|a u] eqn:E.
  { destruct ps; [contradiction|discriminate]. }
  cbn [map py_max] in Hm. rewrite fold_left_vgtb_fin in Hm.
  inversion Hm; subst m. rewrite vdiv_sqrt2 in Hf.
  do 7 eexists. split; [exact Hf|]. split; [reflexivity|].
  split.
  - apply div_sqrt2_negative. apply Rsum_negative; [discriminate|exact Hl].
  - apply div_sqrt2_negative.
    inversion Hl as [|? ? Ha Hu]; subst.
    destruct (Rmax_left_In u a) as [->|Hin]; [exact Ha|].
    rewrite Forall_forall in Hu. apply Hu. exact Hin.
Qed.

(** Witness for C8: two pairs of an upper-level-set diagram. *)
Lemma lives_are_signed_witness :
  get_diagram_lives (drop_inf_rows (diagram_of [(3, 1); (2, 0)]))
    = map Fin (map (fun p => snd p + - fst p) [(3, 1); (2, 0)]) /\
  exists t m e b1 b2 l1 l2,
    get_diagram_features (diagram_of [(3, 1); (2, 0)])
      = ret [Fin t; Fin m; e; b1; b2; l1; l2] /\
    t = Rsum (map (fun p => snd p + - fst p) [(3, 1); (2, 0)]) / sqrt 2 /\
    t < 0 /\ m < 0.
Proof.
  apply (lives_are_signed [(3, 1); (2, 0)]).
  - discriminate.
  - repeat constructor; simpl; lra.
Defined.

(** C8 as stated fails: for the single pair with birth [1] and death [0]
    the life is [-1], and total and maximal life are negative. *)
Lemma negative_life_features :
  get_diagram_lives (drop_inf_rows [(Fin 1, Fin 0)]) = [Fin (0 + - 1)] /\
  exists t m rest,
    get_diagram_features [(Fin 1, Fin 0)] = ret (Fin t :: Fin m :: rest) /\
    t < 0 /\ m < 0.
Proof.
  split; [reflexivity|].
  destruct (get_diagram_features_returns [(Fin 1, Fin 0)])
    as (m & e & b1 & b2 & l1 & l2 & Hm & _ & _ & _ & Hf).
  { repeat constructor. }
  cbn [drop_inf_rows filter fst snd np_isinf orb negb get_diagram_lives map
       vsub vneg vadd py_sum fold_left py_max] in Hm, Hf.
  inversion Hm; subst m. rewrite !vdiv_sqrt2 in Hf.
  do 3 eexists. split; [exact Hf|].
  split; apply div_sqrt2_negative; lra.
Qed.

(** ** Diagrams with [nan] entries *)

Lemma get_area_under_landscape_raises (d : diagram) (e : exn) :
  get_area_under_landscape d = raise e -> e = IndexError.
Proof.
  destruct d as [|r t]; [discriminate|].
  unfold get_area_under_landscape, getLandscapeReturnPoints.
  destruct (argsort_col0 (getLandscapePoints (r :: t))) as [|[b0 e0] u].
  - cbn [bind raise]. intros H. inversion H. reflexivity.
  - cbn [bind ret]. destruct (landscape_sweep _ _ _). discriminate.
Qed.

Lemma get_diagram_features_raises (d : diagram) (e : exn) :
  get_diagram_features d = raise e -> e = IndexError.
Proof.
  unfold get_diagram_features.
  set (d' := drop_inf_rows d).
  destruct (py_max_returns _ (get_diagram_lives_nonempty d')) as [m ->].
  destruct (get_diagram_entropy_returns _ (get_diagram_lives_nonempty d'))
    as [en ->].
  cbn [bind ret].
  destruct (get_area_under_betti_curve d') as [b1 b2].
  destruct (get_area_under_landscape d') as [e'|[l1 l2]] eqn:Hl.
  - cbn [bind]. intros H. inversion H; subst e'.
    eapply get_area_under_landscape_raises. exact Hl.
  - discriminate.
Qed.

(** C10, as the code behaves.  Nothing is validated.  A diagram whose
    deaths are not [nan] once the infinite rows are removed, whatever its
    births are, is turned into a vector of seven values without an error;
    and the only exception the extraction can raise is the [IndexError] of
    [getLandscapeReturnPoints]. *)
Theorem extract_does_not_validate (d : diagram) :
  (Forall death_not_nan (drop_inf_rows d) ->
   exists v, get_diagram_features d = ret v /\ length v = 7%nat) /\
  (forall e, get_diagram_features d = raise e -> e = IndexError).
Proof.
  split.
  - intros Hd.
    destruct (get_diagram_features_returns d Hd)
      as (m & e & b1 & b2 & l1 & l2 & _ & _ & _ & _ & Hf).
    eexists. split; [exact Hf|reflexivity].
  - intros e. apply get_diagram_features_raises.
Qed.

(** Witness for C10: a [nan] birth is accepted, a [nan] death raises
    [IndexError]. *)
Lemma extract_does_not_validate_witness :
  (exists v, get_diagram_features [(NaN, Fin 1)] = ret v /\ length v = 7%nat) /\
  get_diagram_features [(Fin 0, NaN)] = raise IndexError.
Proof.
  split.
  - apply (extract_does_not_validate [(NaN, Fin 1)]). repeat constructor.
  - assert (H : exists e, get_diagram_features [(Fin 0, NaN)] = raise e).
    { exists IndexError. reflexivity. }
    destruct H as [e He]. rewrite He. f_equal.
    apply (extract_does_not_validate [(Fin 0, NaN)]). exact He.
Defined.

(** C10 as stated fails: the diagram [[nan, 1]] is not rejected; its
    features are seven [nan], returned without an error. *)
Lemma nan_birth_is_coerced :
  get_diagram_features [(NaN, Fin 1)]
    = ret [NaN; NaN; NaN; NaN; NaN; NaN; NaN] /\
  ~ (exists e, get_diagram_features [(NaN, Fin 1)] = raise e).
Proof.
  assert (H : get_diagram_features [(NaN, Fin 1)]
              = ret [NaN; NaN; NaN; NaN; NaN; NaN; NaN]).
  { unfold get_diagram_features, get_diagram_entropy,
      get_area_under_betti_curve, get_area_under_landscape,
      getLandscapeReturnPoints, getLandscapePoints, np_lexsort_rows,
      argsort_col0, np_unique_rows.
    vcompute. reflexivity. }
  split; [exact H|]. intros [e He]. rewrite H in He. discriminate.
Qed.

(** ** Window aggregation *)

Lemma mask_select_map {A B : Type} (f : A -> B) (g : A -> bool) (l : list A) :
  mask_select (map f l) (map g l) = map f (filter g l).
Proof.
  induction l as [|x t IH]; [reflexivity|].
  cbn [map mask_select filter]. destruct (g x); rewrite IH; reflexivity.
Qed.

Lemma filter_seq_from (a k : nat) :
  filter (fun pos => (a <=? pos)%nat) (seq 0 k) = seq a (k - a).
Proof.
  induction k as [|k IH]; [reflexivity|].
  rewrite seq_S, filter_app, IH. cbn [filter Nat.add].
  destruct (Nat.leb_spec a k) as [H|H].
  - replace (S k - a)%nat with (S (k - a)) by lia.
    rewrite seq_S. replace (a + (k - a))%nat with k by lia. reflexivity.
  - replace (k - a)%nat with 0%nat by lia.
    replace (S k - a)%nat with 0%nat by lia. reflexivity.
Qed.

Lemma nth_tabulate (g : nat -> val) (k pos : nat) :
  (pos < k)%nat -> nth pos (map g (seq 0 k)) NaN = g pos.
Proof.
  intros H. rewrite (nth_indep _ NaN (g 0%nat))
    by (rewrite length_map, length_seq; exact H).
  rewrite (map_nth g), seq_nth by exact H. reflexivity.
Qed.

(** [dropna] on a frame given by functions of the position, when the rows
    without [nan] are those from position [a] on. *)
Lemma dropna_tabulate (gs : list (nat -> val)) (k a : nat) :
  (forall pos, (pos < k)%nat ->
     forallb (fun v => negb (np_isnan v)) (map (fun g => g pos) gs)
     = (a <=? pos)%nat) ->
  dropna (mkDataFrame (seq 0 k) (map (fun g => map g (seq 0 k)) gs))
  = mkDataFrame (seq a (k - a)) (map (fun g => map g (seq a (k - a))) gs).
Proof.
  intros Hkeep. unfold dropna. cbn [df_index df_columns].
  rewrite length_seq.
  assert (Hmask :
    map (fun pos => forallb (fun v => negb (np_isnan v))
           (row_at (mkDataFrame (seq 0 k)
                      (map (fun g => map g (seq 0 k)) gs)) pos))
        (seq 0 k)
    = map (fun pos => (a <=? pos)%nat) (seq 0 k)).
  { apply map_ext_in. intros pos Hpos. apply in_seq in Hpos.
    rewrite <- Hkeep by lia. f_equal.
    unfold row_at. cbn [df_columns]. rewrite map_map.
    apply map_ext. intros g. apply nth_tabulate. lia. }
  rewrite Hmask. f_equal.
  - rewrite <- (map_id (seq 0 k)) at 1.
    rewrite mask_select_map, map_id. apply filter_seq_from.
  - rewrite map_map. apply map_ext. intros g.
    rewrite mask_select_map, filter_seq_from. reflexivity.
Qed.

(** *** Windows of finite values *)

Lemma nobs_fin (w : list R) : nobs (map Fin w) = length w.
Proof.
  unfold nobs. induction w as [|x t IH]; [reflexivity|].
  cbn [map filter np_isnan np_isinf orb negb length]. rewrite IH.
  reflexivity.
Qed.

Lemma window_at_fin (n : nat) (c : list R) (i : nat) :
  window_at n (map Fin c) i = map Fin (skipn (i + 1 - n) (firstn (i + 1) c)).
Proof.
  unfold window_at. rewrite firstn_map, skipn_map. reflexivity.
Qed.

Lemma window_length (n : nat) (c : list R) (i : nat) :
  (i < length c)%nat ->
  length (skipn (i + 1 - n) (firstn (i + 1) c)) = Nat.min (i + 1) n.
Proof.
  intros H. rewrite length_skipn, length_firstn. lia.
Qed.

Lemma window_rows (n : nat) (c : list R) (i : nat) :
  (n <= i + 1)%nat ->
  skipn (i + 1 - n) (firstn (i + 1) c) = rows_of_window n c i.
Proof.
  intros H. unfold rows_of_window. rewrite firstn_skipn_comm.
  replace (i + 1 - n + n)%nat with (i + 1)%nat by lia. reflexivity.
Qed.

Lemma rolling_mean_at_fin (n : nat) (c : list R) (i : nat) :
  (1 <= n)%nat -> (i < length c)%nat ->
  rolling_mean_at n (map Fin c) i =
  if (i + 1 <? n)%nat then NaN else Fin (Rmean (rows_of_window n c i)).
Proof.
  intros Hn Hi. unfold rolling_mean_at.
  rewrite window_at_fin, nobs_fin, window_length by exact Hi.
  destruct (Nat.ltb_spec (i + 1) n) as [H|H].
  - destruct (Nat.ltb_spec (Nat.min (i + 1) n) n); [reflexivity|lia].
  - destruct (Nat.ltb_spec (Nat.min (i + 1) n) n); [lia|].
    rewrite py_sum_fin, window_rows by exact H.
    assert (Hl : length (rows_of_window n c i) = Nat.min (i + 1) n).
    { rewrite <- window_rows by exact H. apply window_length. exact Hi. }
    rewrite <- Hl. rewrite vdiv_fin; [reflexivity|].
    apply not_0_INR. lia.
Qed.

(** With a window of one row the sample standard deviation is [nan]. *)
Lemma rolling_std_at_one (col : list val) (i : nat) :
  rolling_std_at 1 col i = NaN.
Proof.
  unfold rolling_std_at.
  assert (H : (nobs (window_at 1 col i) <= 1)%nat).
  { unfold nobs. etransitivity; [apply filter_length_le|].
    unfold window_at. rewrite length_skipn, length_firstn. lia. }
  destruct (nobs (window_at 1 col i) <? 1)%nat; [reflexivity|].
  destruct (Nat.leb_spec (nobs (window_at 1 col i)) 1); [reflexivity|lia].
Qed.

Lemma rolling_mean_at_one (c : list R) (i : nat) :
  (i < length c)%nat -> rolling_mean_at 1 (map Fin c) i = nth i (map Fin c) NaN.
Proof.
  intros Hi. rewrite rolling_mean_at_fin by (lia || exact Hi).
  destruct (Nat.ltb_spec (i + 1) 1) as [H|_]; [lia|].
  unfold rows_of_window. replace (i + 1 - 1)%nat with i by lia.
  rewrite (nth_indep _ NaN (Fin 0)) by (rewrite length_map; exact Hi).
  rewrite (map_nth Fin). f_equal.
  revert i Hi. induction c as [|x t IH]; intros i Hi; [simpl in Hi; lia|].
  destruct i as [|i].
  - cbn [skipn firstn nth]. destruct t; unfold Rmean; simpl; field.
  - cbn [skipn nth]. apply IH. simpl in Hi. lia.
Qed.

(** The statistic of a finite column at a position, as a function. *)
Lemma rolling_columns_fin (stat : nat -> list val -> nat -> val)
    (g : list R -> nat -> val) (n k : nat) (cols : list (list R)) :
  Forall (fun c => length c = k) cols ->
  (forall c i, (i < length c)%nat -> stat n (map Fin c) i = g c i) ->
  df_columns (rolling stat n (frame_of_columns k cols))
  = map (fun h => map h (seq 0 k)) (map g cols).
Proof.
  intros Hlen Hg. unfold rolling, frame_of_columns. cbn [df_columns].
  rewrite !map_map. apply map_ext_in. intros c Hc.
  rewrite Forall_forall in Hlen. rewrite length_map, (Hlen c Hc).
  apply map_ext_in. intros i Hi. apply in_seq in Hi.
  apply Hg. rewrite (Hlen c Hc). lia.
Qed.

(** C3, as the code behaves.  With one subwindow per window the rolling
    mean of a row is the row itself, but the sample standard deviation of
    a single observation is [nan]; [dropna] then removes every row, and
    nothing is emitted. *)
Theorem window_of_one_emits_nothing (k : nat) (cols : list (list R)) :
  cols <> [] ->
  Forall (fun c => length c = k) cols ->
  rolling rolling_mean_at 1 (frame_of_columns k cols) = frame_of_columns k cols /\
  (forall c i, In c cols -> rolling_std_at 1 (map Fin c) i = NaN) /\
  window_features (frame_of_columns k cols) 1
    = mkDataFrame [] (map (fun _ => []) (cols ++ cols)).
Proof.
  intros Hne Hlen. split; [|split].
  - unfold rolling, frame_of_columns. cbn [df_index df_columns]. f_equal.
    rewrite map_map. apply map_ext. intros c.
    rewrite length_map.
    rewrite (map_ext_in _ (fun i => nth i (map Fin c) NaN)).
    + clear. induction c as [|x t IH]; [reflexivity|].
      cbn [length seq map nth]. f_equal.
      rewrite <- seq_shift, map_map. exact IH.
    + intros i Hi. apply in_seq in Hi. apply rolling_mean_at_one. lia.
  - intros c i _. apply rolling_std_at_one.
  - set (mean_at := fun (c : list R) (i : nat) =>
           rolling_mean_at 1 (map Fin c) i).
    set (std_at := fun (c : list R) (i : nat) => NaN).
    unfold window_features, concat_columns.
    rewrite (rolling_columns_fin rolling_mean_at mean_at 1 k cols Hlen)
      by reflexivity.
    rewrite (rolling_columns_fin rolling_std_at std_at 1 k cols Hlen)
      by (intros c i _; apply rolling_std_at_one).
    change (df_index (rolling rolling_mean_at 1 (frame_of_columns k cols)))
      with (seq 0 k).
    rewrite <- map_app.
    rewrite (dropna_tabulate _ k k).
    + rewrite Nat.sub_diag. cbn [seq]. f_equal.
      rewrite !map_app, !map_map. reflexivity.
    + intros pos Hpos. rewrite map_app, !map_map, forallb_app.
      destruct cols as [|c0 cs]; [contradiction|].
      unfold std_at. cbn [map forallb np_isnan negb andb].
      rewrite andb_false_r.
      destruct (Nat.leb_spec k pos); [lia|reflexivity].
Qed.

(** Witness for C3: one column of two rows. *)
Lemma window_of_one_emits_nothing_witness :
  rolling rolling_mean_at 1 (frame_of_columns 2 [[5; 7]])
    = frame_of_columns 2 [[5; 7]] /\
  (forall c i, In c [[5; 7]] -> rolling_std_at 1 (map Fin c) i = NaN) /\
  window_features (frame_of_columns 2 [[5; 7]]) 1
    = mkDataFrame [] (map (fun _ => []) ([[5; 7]] ++ [[5; 7]])).
Proof.
  apply (window_of_one_emits_nothing 2 [[5; 7]]).
  - discriminate.
  - repeat constructor.
Defined.

(** C3 as stated fails: two feature rows of one column, one subwindow per
    window; no row is emitted instead of two. *)
Lemma window_of_one_drops_all_rows :
  df_index (frame_of_columns 2 [[5; 7]]) = [0%nat; 1%nat] /\
  window_features (frame_of_columns 2 [[5; 7]]) 1
    = mkDataFrame [] [[]; []].
Proof.
  split; [reflexivity|].
  unfold window_features, concat_columns, dropna, rolling, frame_of_columns.
  cbn [df_index df_columns map length seq row_at app].
  rewrite !rolling_std_at_one.
  cbn [nth map forallb np_isnan negb andb mask_select].
  rewrite !andb_false_r. reflexivity.
Qed.

(** * Further properties *)

(** ** More on the segmenter *)

Section SegmenterMore.

Context {A : Type}.

(** The subwindows for a positive shift, indexed by natural numbers. *)
Lemma sliding_windows_pos (y : list A) (len shift : Z) :
  (0 <= len <= Z.of_nat (length y))%Z ->
  (1 <= shift)%Z ->
  sliding_windows y len shift =
  ret (map (fun k => firstn (Z.to_nat len) (skipn (k * Z.to_nat shift) y))
           (seq 0 (Z.to_nat ((Z.of_nat (length y) - len) / shift + 1)))).
Proof.
  intros [Hl1 Hl2] Hs. unfold sliding_windows.
  rewrite py_range_pos by assumption. cbn [bind ret].
  rewrite window_count by lia. f_equal.
  rewrite map_map. apply map_ext_in. intros k Hk. apply in_seq in Hk.
  destruct (offset_in_bounds (Z.of_nat (length y)) len shift k Hl2 Hs
              ltac:(lia)) as [Ho1 Ho2].
  rewrite py_slice_inside by lia.
  do 2 f_equal. lia.
Qed.

Lemma sliding_windows_too_long (y : list A) (len shift : Z) :
  (1 <= shift)%Z -> (Z.of_nat (length y) < len)%Z ->
  sliding_windows y len shift = ret [].
Proof.
  intros Hs Hl. unfold sliding_windows.
  rewrite py_range_pos by assumption.
  set (stop := (Z.of_nat (length y) - len + 1)%Z).
  replace (Z.to_nat ((stop + shift - 1) / shift)) with 0%nat; [reflexivity|].
  assert (((stop + shift - 1) / shift <= 0)%Z).
  { apply Z.lt_succ_r. apply Z.div_lt_upper_bound; subst stop; lia. }
  lia.
Qed.

(** X1. When the subwindow is as long as the sequence there is exactly
    one subwindow, the sequence itself, whatever the (positive) shift. *)
Theorem sliding_windows_whole (y : list A) (shift : Z) :
  (1 <= shift)%Z ->
  sliding_windows y (Z.of_nat (length y)) shift = ret [y].
Proof.
  intros Hs. rewrite sliding_windows_pos by lia.
  rewrite Z.sub_diag, Z.div_0_l by lia.
  change (Z.to_nat (0 + 1)) with 1%nat.
  cbn [seq map Nat.mul skipn].
  rewrite Nat2Z.id, firstn_all. reflexivity.
Qed.

(** X2. A negative shift is not rejected: as long as the subwindow is at
    most one sample longer than the sequence, the result is the empty
    list of subwindows. *)
Theorem sliding_windows_negative_shift (y : list A) (len shift : Z) :
  (shift < 0)%Z ->
  (len <= Z.of_nat (length y) + 1)%Z ->
  sliding_windows y len shift = ret [].
Proof.
  intros Hs Hl. unfold sliding_windows, py_range.
  destruct (Z.eqb_spec shift 0) as [E|_]; [lia|].
  destruct (Z.ltb_spec 0 shift) as [E|_]; [lia|].
  set (stop := (Z.of_nat (length y) - len + 1)%Z).
  replace (Z.to_nat ((0 - stop - shift - 1) / - shift)) with 0%nat;
    [reflexivity|].
  assert (((0 - stop - shift - 1) / - shift <= 0)%Z).
  { apply Z.lt_succ_r. apply Z.div_lt_upper_bound; subst stop; lia. }
  lia.
Qed.

Lemma firstn_add (a b : nat) (l : list A) :
  firstn (a + b) l = firstn a l ++ firstn b (skipn a l).
Proof.
  revert l. induction a as [|a IH]; intros l; [reflexivity|].
  destruct l as [|x t]; cbn [Nat.add firstn skipn app].
  - rewrite firstn_nil. reflexivity.
  - rewrite IH. reflexivity.
Qed.

Lemma concat_blocks (y : list A) (len m : nat) :
  concat (map (fun k => firstn len (skipn (k * len) y)) (seq 0 m))
  = firstn (m * len) y.
Proof.
  induction m as [|m IH]; [reflexivity|].
  rewrite seq_S, map_app, concat_app, IH. cbn [Nat.add map concat].
  rewrite app_nil_r. cbn [Nat.mul]. rewrite (Nat.add_comm len (m * len)).
  symmetry. apply firstn_add.
Qed.

(** X3. With the shift equal to the length the subwindows tile the
    sequence: concatenated, they give back its first
    [floor(len(y) / length) * length] samples, hence the whole sequence
    when the length divides [len(y)]. *)
Theorem sliding_windows_tiling (y : list A) (len : Z) :
  (1 <= len)%Z ->
  exists ws,
    sliding_windows y len len = ret ws /\
    concat ws = firstn (Z.to_nat (Z.of_nat (length y) / len * len)) y /\
    ((Z.of_nat (length y) mod len = 0)%Z -> concat ws = y).
Proof.
  intros Hl. set (n := Z.of_nat (length y)).
  assert (Hcat : exists ws, sliding_windows y len len = ret ws /\
            concat ws = firstn (Z.to_nat (n / len * len)) y).
  { destruct (Z_le_gt_dec len n) as [Hle|Hgt].
    - rewrite sliding_windows_pos by (fold n; lia). fold n.
      eexists. split; [reflexivity|].
      rewrite concat_blocks. f_equal.
      replace ((n - len) / len + 1)%Z with (n / len)%Z.
      + assert (0 <= n / len)%Z by (apply Z.div_pos; lia).
        rewrite Z2Nat.inj_mul by lia. reflexivity.
      + replace n with ((n - len) + 1 * len)%Z at 1 by lia.
        rewrite Z.div_add by lia. reflexivity.
    - rewrite sliding_windows_too_long by (fold n; lia).
      eexists. split; [reflexivity|].
      rewrite Z.div_small by (subst n; lia). reflexivity. }
  destruct Hcat as [ws [H1 H2]]. exists ws. split; [exact H1|].
  split; [exact H2|]. intros Hm. rewrite H2.
  apply firstn_all2.
  pose proof (Z.div_mod n len ltac:(lia)) as Hd. subst n. lia.
Qed.

(** X4. Sample [j] of subwindow [k] is sample [k * shift + j] of the
    sequence; with [shift = 1] this is the delay embedding, whose point
    [k] has the coordinates [y[k], ..., y[k + length - 1]]. *)
Theorem sliding_windows_sample (y : list A) (len shift : Z) (d : A) :
  (1 <= len <= Z.of_nat (length y))%Z ->
  (1 <= shift)%Z ->
  exists ws,
    sliding_windows y len shift = ret ws /\
    forall k j, (k < length ws)%nat -> (j < Z.to_nat len)%nat ->
      nth j (nth k ws []) d = nth (k * Z.to_nat shift + j) y d /\
      (k * Z.to_nat shift + j < length y)%nat.
Proof.
  intros Hl Hs. rewrite sliding_windows_pos by lia.
  eexists. split; [reflexivity|].
  intros k j Hk Hj. rewrite length_map, length_seq in Hk.
  rewrite (nth_indep _ [] (firstn (Z.to_nat len)
                              (skipn (0 * Z.to_nat shift) y)))
    by (rewrite length_map, length_seq; exact Hk).
  rewrite (map_nth (fun k => firstn (Z.to_nat len)
                                (skipn (k * Z.to_nat shift) y))).
  rewrite seq_nth by exact Hk. cbn [Nat.add].
  rewrite nth_firstn, nth_skipn.
  destruct (Nat.ltb_spec j (Z.to_nat len)) as [_|E]; [|lia].
  split; [reflexivity|].
  destruct (offset_in_bounds (Z.of_nat (length y)) len shift k
              ltac:(lia) Hs Hk) as [Ho1 Ho2].
  nia.
Qed.

End SegmenterMore.

(** Witness for X1. *)
Lemma sliding_windows_whole_witness :
  sliding_windows [1; 2; 3]%Z (Z.of_nat (length [1; 2; 3]%Z)) 2
    = ret [[1; 2; 3]%Z].
Proof. apply (sliding_windows_whole [1; 2; 3]%Z 2). lia. Defined.

(** Witness for X2. *)
Lemma sliding_windows_negative_shift_witness :
  sliding_windows [1; 2; 3]%Z 2 (-1) = ret [].
Proof.
  apply (sliding_windows_negative_shift [1; 2; 3]%Z 2 (-1)); simpl; lia.
Defined.

(** Witness for X3: six samples in blocks of two. *)
Lemma sliding_windows_tiling_witness :
  exists ws,
    sliding_windows [1; 2; 3; 4; 5; 6]%Z 2 2 = ret ws /\
    concat ws
      = firstn (Z.to_nat (Z.of_nat (length [1; 2; 3; 4; 5; 6]%Z) / 2 * 2))
               [1; 2; 3; 4; 5; 6]%Z /\
    ((Z.of_nat (length [1; 2; 3; 4; 5; 6]%Z) mod 2 = 0)%Z ->
     concat ws = [1; 2; 3; 4; 5; 6]%Z).
Proof. apply (sliding_windows_tiling [1; 2; 3; 4; 5; 6]%Z 2). lia. Defined.

(** Witness for X4: points of dimension 3 of a delay embedding. *)
Lemma sliding_windows_sample_witness :
  exists ws,
    sliding_windows [1; 2; 3; 4; 5]%Z 3 1 = ret ws /\
    forall k j, (k < length ws)%nat -> (j < Z.to_nat 3)%nat ->
      nth j (nth k ws []) 0%Z
        = nth (k * Z.to_nat 1 + j) [1; 2; 3; 4; 5]%Z 0%Z /\
      (k * Z.to_nat 1 + j < length [1; 2; 3; 4; 5]%Z)%nat.
Proof.
  apply (sliding_windows_sample [1; 2; 3; 4; 5]%Z 3 1 0%Z); simpl; lia.
Defined.

(** ** Entropy of lives without a zero *)

Lemma vdiv_map_fin (s : R) (l : list R) :
  s <> 0 ->
  map (fun x => vdiv x (Fin s)) (map Fin l) = map Fin (map (fun x => x / s) l).
Proof.
  intros Hs. rewrite !map_map. apply map_ext. intros x.
  apply vdiv_fin. exact Hs.
Qed.

Lemma entropy_term_positive (p : R) :
  0 < p ->
  vmul (vneg (Fin p)) (vlog (Fin p))
  = Fin (if Reqb p 0 then 0 else - p * ln p).
Proof.
  intros Hp. cbn [vlog vneg]. rcompare. reflexivity.
Qed.

(** When every life has a positive share of the total, the entropy is the
    Shannon entropy of the shares. *)
Lemma entropy_of_shares (lives : list R) :
  lives <> [] ->
  Rsum lives <> 0 ->
  Forall (fun l => 0 < l / Rsum lives) lives ->
  get_diagram_entropy (map Fin lives)
  = ret (Fin (shannon_entropy (map (fun l => l / Rsum lives) lives))).
Proof.
  intros Hne Hs Hp. unfold get_diagram_entropy.
  destruct (py_max_abs_positive lives) as [m [-> Hm]].
  { destruct lives as [|a t]; [contradiction|]. exists a.
    split; [left; reflexivity|]. inversion Hp as [|? ? Ha _]; subst.
    intros ->. unfold Rdiv in Ha. rewrite Rmult_0_l in Ha. lra. }
  cbn [bind ret veqb]. rewrite (Reqb_false m 0) by lra.
  rewrite py_sum_fin, vdiv_map_fin by exact Hs.
  unfold ret, shannon_entropy. f_equal.
  rewrite <- py_sum_fin. f_equal. rewrite !map_map.
  apply map_ext_in. intros l Hl.
  rewrite Forall_forall in Hp. apply entropy_term_positive. auto.
Qed.

Lemma Rsum_nonneg (l : list R) : Forall (fun x => 0 <= x) l -> 0 <= Rsum l.
Proof.
  induction 1 as [|x t Hx _ IH]; cbn [Rsum fold_right]; [lra|].
  fold (Rsum t). lra.
Qed.

Lemma Rsum_positive (l : list R) :
  l <> [] -> Forall (fun x => 0 < x) l -> 0 < Rsum l.
Proof.
  intros Hn Hl. destruct Hl as [|x t Hx Ht]; [contradiction|].
  cbn [Rsum fold_right]. fold (Rsum t).
  assert (0 <= Rsum t).
  { apply Rsum_nonneg. eapply Forall_impl; [|exact Ht]. intros; lra. }
  lra.
Qed.

Lemma Rsum_ge_element (l : list R) (x : R) :
  Forall (fun y => 0 < y) l -> In x l -> x <= Rsum l.
Proof.
  induction 1 as [|y t Hy Ht IH]; [contradiction|].
  cbn [Rsum fold_right]. fold (Rsum t).
  assert (0 <= Rsum t).
  { apply Rsum_nonneg. eapply Forall_impl; [|exact Ht]. intros; lra. }
  intros [->|Hx]; [lra|]. specialize (IH Hx). lra.
Qed.

Lemma share_bounds (lives : list R) (l : R) :
  Forall (fun y => 0 < y) lives -> In l lives ->
  0 < l / Rsum lives <= 1.
Proof.
  intros Hp Hl.
  assert (Hs : 0 < Rsum lives).
  { apply Rsum_positive; [|exact Hp]. intros ->. contradiction. }
  pose proof (Rsum_ge_element lives l Hp Hl) as Hle.
  rewrite Forall_forall in Hp. specialize (Hp l Hl).
  split.
  - apply Rdiv_lt_0_compat; assumption.
  - apply (Rmult_le_reg_r (Rsum lives)); [exact Hs|].
    unfold Rdiv. rewrite Rmult_assoc, Rinv_l by lra. lra.
Qed.

Lemma entropy_term_nonneg (p : R) :
  0 < p <= 1 -> 0 <= (if Reqb p 0 then 0 else - p * ln p).
Proof.
  intros [H0 H1]. rewrite (Reqb_false p 0) by lra.
  assert (ln p <= 0).
  { destruct (Req_dec_T p 1) as [->|N]; [rewrite ln_1; lra|].
    pose proof (ln_increasing p 1 H0 ltac:(lra)) as H.
    rewrite ln_1 in H. lra. }
  nra.
Qed.

Lemma entropy_of_positive_shares (lives : list R) :
  lives <> [] ->
  Forall (fun l => 0 < l) lives ->
  get_diagram_entropy (map Fin lives)
  = ret (Fin (shannon_entropy (map (fun l => l / Rsum lives) lives))).
Proof.
  intros Hne Hp.
  pose proof (Rsum_positive lives Hne Hp) as Hs.
  apply entropy_of_shares; [exact Hne|lra|].
  apply Forall_forall. intros l Hl. apply (share_bounds lives l Hp Hl).
Qed.

Lemma shares_entropy_nonneg (lives : list R) :
  Forall (fun l => 0 < l) lives ->
  0 <= shannon_entropy (map (fun l => l / Rsum lives) lives).
Proof.
  intros Hp. unfold shannon_entropy. apply Rsum_nonneg.
  apply Forall_forall. intros t Ht.
  rewrite map_map in Ht. apply in_map_iff in Ht.
  destruct Ht as [l [<- Hl]].
  apply entropy_term_nonneg. apply (share_bounds lives l Hp Hl).
Qed.

(** *** The safe range *)

Lemma safe_bound_large : 1000 <= safe_bound.
Proof. unfold safe_bound. apply IZR_le. apply Z.leb_le. reflexivity. Qed.

Lemma safe_bound_inv : 0 < / safe_bound <= / 1000.
Proof.
  pose proof safe_bound_large as H. split.
  - apply Rinv_0_lt_compat. lra.
  - apply Rinv_le_contravar; lra.
Qed.

Lemma in_safe_range_pos (x : R) : in_safe_range x -> 0 < x.
Proof. intros [H _]. pose proof safe_bound_inv. lra. Qed.

Lemma safe_range_positive (l : list R) :
  Forall in_safe_range l -> Forall (fun x => 0 < x) l.
Proof.
  intros H. eapply Forall_impl; [|exact H]. exact in_safe_range_pos.
Qed.

(** Settles that a small positive constant lies in the safe range. *)
Ltac safe_range :=
  pose proof safe_bound_large; pose proof safe_bound_inv;
  unfold in_safe_range;
  try (unfold Rabs; destruct (Rcase_abs _));
  simpl; lra.

(** X5. For lives in the safe range (positive, no overflow of their sum,
    no underflow of their shares) the entropy feature is the Shannon
    entropy of the normalised lives, a non-negative real.  The proof is in
    exact arithmetic; the range is what makes the reals stand for the
    floats. *)
Theorem entropy_of_positive_lives (lives : list R) :
  lives <> [] ->
  Forall in_safe_range lives ->
  INR (length lives) <= safe_bound ->
  get_diagram_entropy (map Fin lives)
    = ret (Fin (shannon_entropy (map (fun l => l / Rsum lives) lives))) /\
  0 <= shannon_entropy (map (fun l => l / Rsum lives) lives).
Proof.
  intros Hne Hr _. pose proof (safe_range_positive lives Hr) as Hp. split.
  - apply entropy_of_positive_shares; assumption.
  - apply shares_entropy_nonneg. exact Hp.
Qed.

(** Witness for X5. *)
Lemma entropy_of_positive_lives_witness :
  get_diagram_entropy (map Fin [1; 3])
    = ret (Fin (shannon_entropy (map (fun l => l / Rsum [1; 3]) [1; 3]))) /\
  0 <= shannon_entropy (map (fun l => l / Rsum [1; 3]) [1; 3]).
Proof.
  apply (entropy_of_positive_lives [1; 3]).
  - discriminate.
  - repeat constructor; safe_range.
  - safe_range.
Defined.

Lemma Rsum_scale (c : R) (l : list R) : Rsum (map (Rmult c) l) = c * Rsum l.
Proof.
  induction l as [|x t IH]; cbn [map Rsum fold_right]; [ring|].
  fold (Rsum (map (Rmult c) t)). fold (Rsum t). rewrite IH. ring.
Qed.

(** X6. The entropy does not change when all the lives are multiplied by
    a factor, as long as the lives and the scaled lives (in absolute
    value) are in the safe range; with the factor [-1], the negative lives
    of an upper-level-set diagram have the entropy of their absolute
    values. *)
Theorem entropy_scale_invariant (c : R) (lives : list R) :
  lives <> [] ->
  Forall in_safe_range lives ->
  Forall (fun l => in_safe_range (Rabs (c * l))) lives ->
  INR (length lives) <= safe_bound ->
  get_diagram_entropy (map Fin (map (Rmult c) lives))
  = get_diagram_entropy (map Fin lives).
Proof.
  intros Hne Hr Hrc _.
  pose proof (safe_range_positive lives Hr) as Hp.
  assert (Hc : c <> 0).
  { destruct lives as [|l0 t]; [contradiction|].
    inversion Hrc as [|? ? H0 _]; subst.
    apply in_safe_range_pos in H0.
    intros ->. rewrite Rmult_0_l, Rabs_R0 in H0. lra. }
  pose proof (Rsum_positive lives Hne Hp) as Hs.
  assert (Hshare : forall l, In l lives -> 0 < l / Rsum lives)
    by (intros l Hl; apply (share_bounds lives l Hp Hl)).
  assert (Heq : forall l, c * l / (c * Rsum lives) = l / Rsum lives)
    by (intros l; field; split; lra).
  rewrite (entropy_of_shares lives Hne ltac:(lra))
    by (apply Forall_forall; exact Hshare).
  rewrite entropy_of_shares.
  - rewrite Rsum_scale, map_map. do 3 f_equal.
    apply map_ext. intros l. apply Heq.
  - destruct lives; [contradiction|discriminate].
  - rewrite Rsum_scale. apply Rmult_integral_contrapositive. split; lra.
  - rewrite Rsum_scale. apply Forall_forall. intros t Ht.
    apply in_map_iff in Ht. destruct Ht as [l [<- Hl]].
    rewrite Heq. apply Hshare. exact Hl.
Qed.

(** Witness for X6: the lives of an upper-level-set diagram. *)
Lemma entropy_scale_invariant_witness :
  get_diagram_entropy (map Fin (map (Rmult (-1)) [1; 3]))
  = get_diagram_entropy (map Fin [1; 3]).
Proof.
  apply (entropy_scale_invariant (-1) [1; 3]).
  - discriminate.
  - repeat constructor; safe_range.
  - repeat constructor; safe_range.
  - safe_range.
Defined.

(** X7. When every life is zero (a diagram of pairs with birth equal to
    death) the entropy is [0]: the guard prevents the division [0 / 0]. *)
Theorem entropy_of_zero_lives (lives : list R) :
  lives <> [] ->
  Forall (fun l => l = 0) lives ->
  get_diagram_entropy (map Fin lives) = ret (Fin 0).
Proof.
  intros Hne Hz. destruct lives as [|a t]; [contradiction|].
  unfold get_diagram_entropy. cbn [map vabs py_max].
  replace (map vabs (map Fin t)) with (map Fin (map Rabs t))
    by (rewrite !map_map; reflexivity).
  rewrite fold_left_vgtb_fin. cbn [bind ret veqb].
  inversion Hz as [|? ? Ha Ht]; subst. rewrite Rabs_R0.
  assert (Hm : Rmax_left (map Rabs t) 0 = 0).
  { destruct (Rmax_left_In (map Rabs t) 0) as [->|Hin]; [reflexivity|].
    apply in_map_iff in Hin. destruct Hin as [x [Hx Hin]].
    rewrite Forall_forall in Ht. rewrite (Ht x Hin), Rabs_R0 in Hx.
    symmetry. exact Hx. }
  rewrite Hm, Reqb_refl. reflexivity.
Qed.

(** Witness for X7. *)
Lemma entropy_of_zero_lives_witness :
  get_diagram_entropy (map Fin [0; 0]) = ret (Fin 0).
Proof.
  apply (entropy_of_zero_lives [0; 0]).
  - discriminate.
  - repeat constructor.
Defined.

Lemma Rsum_repeat (x : R) (n : nat) : Rsum (repeat x n) = INR n * x.
Proof.
  induction n as [|n IH]; [simpl; ring|].
  cbn [repeat Rsum fold_right]. fold (Rsum (repeat x n)).
  rewrite IH, S_INR. ring.
Qed.

Lemma map_repeat_R (f : R -> R) (x : R) (n : nat) :
  map f (repeat x n) = repeat (f x) n.
Proof. induction n as [|n IH]; [reflexivity|]. simpl. rewrite IH. reflexivity. Qed.

(** X8. A diagram with [n] equal lives has the entropy [ln n], whatever
    the common life is, of either sign, as long as its absolute value is
    in the safe range and [n] is below the bound. *)
Theorem entropy_of_equal_lives (x : R) (n : nat) :
  in_safe_range (Rabs x) ->
  (1 <= n)%nat ->
  INR n <= safe_bound ->
  get_diagram_entropy (map Fin (repeat x n)) = ret (Fin (ln (INR n))).
Proof.
  intros Hr Hn _.
  assert (Hx : x <> 0).
  { apply in_safe_range_pos in Hr. intros ->. rewrite Rabs_R0 in Hr. lra. }
  assert (Hpos : 0 < INR n) by (apply lt_0_INR; lia).
  assert (Hshare : x / Rsum (repeat x n) = / INR n).
  { rewrite Rsum_repeat. field. split; lra. }
  assert (Hinv : 0 < / INR n) by (apply Rinv_0_lt_compat; exact Hpos).
  rewrite entropy_of_shares.
  - unfold ret. do 2 f_equal. unfold shannon_entropy.
    rewrite !map_repeat_R, Rsum_repeat, Hshare.
    rewrite (Reqb_false (/ INR n) 0) by lra.
    rewrite ln_Rinv by exact Hpos. field. lra.
  - destruct n; [lia|discriminate].
  - rewrite Rsum_repeat. apply Rmult_integral_contrapositive. split; lra.
  - apply Forall_forall. intros l Hl. apply repeat_spec in Hl. subst l.
    rewrite Hshare. exact Hinv.
Qed.

(** Witness for X8. *)
Lemma entropy_of_equal_lives_witness :
  get_diagram_entropy (map Fin (repeat 2 3)) = ret (Fin (ln (INR 3))).
Proof.
  apply (entropy_of_equal_lives 2 3); [safe_range|lia|safe_range].
Defined.

(** ** Areas under the Betti curve *)

Lemma insert_by_map {A B : Type} (g : A -> B) (leb : B -> B -> bool)
    (leb' : A -> A -> bool) (x : A) (l : list A) :
  (forall a b, leb (g a) (g b) = leb' a b) ->
  insert_by leb (g x) (map g l) = map g (insert_by leb' x l).
Proof.
  intros H. induction l as [|y t IH]; [reflexivity|].
  cbn [map insert_by]. rewrite H. destruct (leb' x y); [reflexivity|].
  cbn [map]. rewrite IH. reflexivity.
Qed.

Lemma sort_by_map {A B : Type} (g : A -> B) (leb : B -> B -> bool)
    (leb' : A -> A -> bool) (l : list A) :
  (forall a b, leb (g a) (g b) = leb' a b) ->
  sort_by leb (map g l) = map g (sort_by leb' l).
Proof.
  intros H. induction l as [|x t IH]; [reflexivity|].
  cbn [map sort_by fold_right]. fold (sort_by leb (map g t)).
  fold (sort_by leb' t). rewrite IH. apply insert_by_map. exact H.
Qed.

Lemma insert_by_Permutation {A : Type} (leb : A -> A -> bool) (x : A)
    (l : list A) :
  Permutation (insert_by leb x l) (x :: l).
Proof.
  induction l as [|y t IH]; [reflexivity|].
  cbn [insert_by]. destruct (leb x y); [reflexivity|].
  rewrite IH. apply perm_swap.
Qed.

Lemma sort_by_Permutation {A : Type} (leb : A -> A -> bool) (l : list A) :
  Permutation (sort_by leb l) l.
Proof.
  induction l as [|x t IH]; [reflexivity|].
  cbn [sort_by fold_right]. fold (sort_by leb t).
  rewrite insert_by_Permutation. constructor. exact IH.
Qed.

Lemma Rsum_app (l1 l2 : list R) : Rsum (l1 ++ l2) = Rsum l1 + Rsum l2.
Proof.
  unfold Rsum. induction l1 as [|x t IH]; cbn [app fold_right]; [ring|].
  rewrite IH. ring.
Qed.

Lemma Rsum_Permutation (l1 l2 : list R) :
  Permutation l1 l2 -> Rsum l1 = Rsum l2.
Proof.
  unfold Rsum.
  induction 1 as [|x l l' _ IH|x y l|l l' l'' _ IH1 _ IH2];
    cbn [fold_right] in *.
  - reflexivity.
  - rewrite IH. reflexivity.
  - ring.
  - congruence.
Qed.

Lemma combine_map2 {A B C : Type} (f : A -> B) (g : A -> C) (l : list A) :
  combine (map f l) (map g l) = map (fun x => (f x, g x)) l.
Proof.
  induction l as [|x t IH]; [reflexivity|]. cbn [map combine].
  rewrite IH. reflexivity.
Qed.

Lemma combine_app_same {A B : Type} (l1 l2 : list A) (m1 m2 : list B) :
  length l1 = length m1 ->
  combine (l1 ++ l2) (m1 ++ m2) = combine l1 m1 ++ combine l2 m2.
Proof.
  revert m1. induction l1 as [|x t IH]; intros [|y u] H;
    try discriminate; [reflexivity|].
  cbn [app combine]. rewrite IH by (simpl in H; lia). reflexivity.
Qed.

Lemma combine_tagged (ps : list (R * R)) :
  combine (map fst (diagram_of ps) ++ map snd (diagram_of ps))
          (map (fun _ => Birth) (diagram_of ps)
           ++ map (fun _ => Death) (diagram_of ps))
  = map inject_point (tagged_points ps).
Proof.
  rewrite combine_app_same by (rewrite !length_map; reflexivity).
  rewrite !combine_map2. unfold tagged_points, diagram_of.
  rewrite map_app, !map_map. reflexivity.
Qed.

(** Sum of the signs and signed sum of the coordinates. *)
Lemma sign_sum_tagged (ps : list (R * R)) :
  Rsum (map (fun q => tag_sign (snd q)) (tagged_points ps)) = 0.
Proof.
  unfold tagged_points. rewrite map_app, !map_map, Rsum_app. cbn [snd].
  induction ps as [|p t IH]; cbn [map Rsum fold_right tag_sign]; [ring|].
  fold (Rsum (map (fun _ : R * R => 1) t)).
  fold (Rsum (map (fun _ : R * R => -1) t)).
  cbn [tag_sign] in IH. lra.
Qed.

Lemma signed_sum_tagged (ps : list (R * R)) :
  Rsum (map (fun q => tag_sign (snd q) * fst q) (tagged_points ps))
  = - Rsum (lives_of ps).
Proof.
  unfold tagged_points, lives_of.
  rewrite map_app, !map_map, Rsum_app. cbn [fst snd tag_sign].
  induction ps as [|p t IH]; cbn [map Rsum fold_right]; [ring|].
  fold (Rsum (map (fun x : R * R => 1 * fst x) t)).
  fold (Rsum (map (fun x : R * R => -1 * snd x) t)).
  fold (Rsum (map (fun p : R * R => snd p - fst p) t)).
  lra.
Qed.

Lemma IZR_square_nonneg (h : Z) : 0 <= IZR (h ^ 2).
Proof. apply IZR_le. rewrite Z.pow_2_r. nia. Qed.

Lemma IZR_step (h : Z) (t : tag) :
  IZR match t with
      | Birth => (h + 1)%Z
      | Death => (h + -1)%Z
      end = IZR h + tag_sign t.
Proof. destruct t; rewrite plus_IZR; reflexivity. Qed.

(** The sweep in closed form: with [x0] the first and [xl] the last
    coordinate, the first accumulator grows by
    [h * (xl - x0) + sum_j s_j * (xl - x_j)]; the second one does not
    decrease when the points are sorted. *)
Lemma betti_sweep_fin (l : list (R * tag)) (h : Z) (a b : R) :
  l <> [] ->
  exists a' b',
    betti_sweep (map inject_point l) h (Fin a) (Fin b) = (Fin a', Fin b') /\
    a' = a + IZR h * (fst (last l (0, Birth)) - fst (hd (0, Birth) l))
           + fst (last l (0, Birth))
             * Rsum (map (fun q => tag_sign (snd q)) l)
           - Rsum (map (fun q => tag_sign (snd q) * fst q) l) /\
    (ordered (le_of point_leb) l -> b <= b').
Proof.
  revert h a b. induction l as [|[p0 t0] rest IH]; intros h a b Hne;
    [contradiction|].
  destruct rest as [|[p1 t1] rest].
  - exists a, b. split; [reflexivity|]. split; [|intros _; lra].
    cbn [last hd fst snd map Rsum fold_right]. ring.
  - cbn [map inject_point betti_sweep fst snd vsub vneg vadd vmul].
    change (map inject_point ((p1, t1) :: rest))
      with ((Fin p1, t1) :: map inject_point rest) in IH.
    set (h' := match t0 with
               | Birth => (h + 1)%Z
               | Death => (h + -1)%Z
               end).
    destruct (IH h' (a + IZR h' * (p1 + - p0))
                 (b + IZR (h' ^ 2) * (p1 + - p0)) ltac:(discriminate))
      as (a' & b' & Hsweep & Ha & Hb).
    exists a', b'. split; [exact Hsweep|]. split.
    + rewrite Ha. subst h'. rewrite IZR_step.
      change (last ((p0, t0) :: (p1, t1) :: rest) (0, Birth))
        with (last ((p1, t1) :: rest) (0, Birth)).
      cbn [hd fst snd map Rsum fold_right].
      fold (Rsum (map (fun q : R * tag => tag_sign (snd q)) rest)).
      fold (Rsum (map (fun q : R * tag => tag_sign (snd q) * fst q) rest)).
      ring.
    + intros Ho. inversion Ho as [|? ? H0 Hrest]; subst.
      specialize (Hb Hrest).
      inversion H0 as [|? ? Hle _]; subst.
      unfold le_of, point_leb in Hle. cbn [fst] in Hle.
      apply negb_true_iff in Hle. unfold Rltb in Hle.
      destruct (Rlt_dec p1 p0); [discriminate|].
      pose proof (IZR_square_nonneg h') as Hsq.
      assert (0 <= IZR (h' ^ 2) * (p1 + - p0))
        by (apply Rmult_le_pos; lra).
      lra.
Qed.

Lemma point_leb_total (a b : R * tag) :
  point_leb a b = true \/ point_leb b a = true.
Proof.
  unfold point_leb, Rltb.
  destruct (Rlt_dec (fst b) (fst a)), (Rlt_dec (fst a) (fst b));
    simpl; auto; lra.
Qed.

Lemma point_leb_trans (a b c : R * tag) :
  point_leb a b = true -> point_leb b c = true -> point_leb a c = true.
Proof.
  unfold point_leb, Rltb.
  destruct (Rlt_dec (fst b) (fst a)), (Rlt_dec (fst c) (fst b)),
    (Rlt_dec (fst c) (fst a)); simpl; try congruence; lra.
Qed.

Lemma betti_areas_fin (ps : list (R * R)) :
  exists v,
    get_area_under_betti_curve (diagram_of ps)
      = (Fin (Rsum (lives_of ps)), Fin (sqrt v)) /\
    0 <= v.
Proof.
  destruct ps as [|p0 ps'] eqn:Eps.
  { exists 0. split; [|lra]. cbn. rewrite sqrt_0. reflexivity. }
  rewrite <- Eps.
  assert (Hd : exists r t, diagram_of ps = r :: t)
    by (subst ps; eexists; eexists; reflexivity).
  destruct Hd as (r & t & Hd).
  unfold get_area_under_betti_curve.
  rewrite combine_tagged.
  rewrite (sort_by_map inject_point _ point_leb) by reflexivity.
  set (L := sort_by point_leb (tagged_points ps)).
  assert (HL : L <> []).
  { apply sort_by_nonempty. subst ps. discriminate. }
  destruct (betti_sweep_fin L 0 0 0 HL) as (a' & b' & Hsweep & Ha & Hb).
  rewrite Hd, Hsweep.
  assert (Hperm : Permutation L (tagged_points ps))
    by apply sort_by_Permutation.
  rewrite (Rsum_Permutation _ _
             (Permutation_map (fun q => tag_sign (snd q)) Hperm)) in Ha.
  rewrite (Rsum_Permutation _ _
             (Permutation_map (fun q => tag_sign (snd q) * fst q) Hperm))
    in Ha.
  rewrite sign_sum_tagged, signed_sum_tagged in Ha.
  specialize (Hb (sort_by_ordered point_leb point_leb_total point_leb_trans _)).
  exists b'. split; [|exact Hb].
  cbn [vsqrt]. rewrite (Rltb_false b' 0) by exact Hb.
  do 2 f_equal. rewrite Ha. simpl. ring.
Qed.


(** ** Rows that shape the landscape *)

Lemma mask_select_In {A : Type} (x : A) (l : list A) (mask : list bool) :
  In x (mask_select l mask) -> In x l.
Proof.
  revert mask. induction l as [|y t IH]; intros [|b bs]; cbn [mask_select];
    try contradiction.
  destruct b; simpl; intros H.
  - destruct H as [H|H]; [left; exact H|right; eapply IH; exact H].
  - right. eapply IH. exact H.
Qed.

Lemma ordered_mask_select {A : Type} (R : A -> A -> Prop) (l : list A)
    (mask : list bool) :
  ordered R l -> ordered R (mask_select l mask).
Proof.
  intros Ho. revert mask.
  induction Ho as [|x t Hx Ht IH]; intros [|b bs]; cbn [mask_select];
    try constructor.
  destruct b; [|apply IH].
  constructor; [|apply IH].
  rewrite Forall_forall in *. intros z Hz. apply Hx.
  eapply mask_select_In. exact Hz.
Qed.

Lemma ordered_impl {A : Type} (R S : A -> A -> Prop) (l : list A) :
  (forall a b, R a b -> S a b) -> ordered R l -> ordered S l.
Proof.
  intros H. induction 1 as [|x t Hx _ IH]; constructor; [|exact IH].
  eapply Forall_impl; [|exact Hx]. intros z. apply H.
Qed.

Lemma getLandscapePoints_In (r : row) (d : diagram) :
  In r (getLandscapePoints d) -> In r d.
Proof.
  unfold getLandscapePoints, np_lexsort_rows. intros H.
  apply mask_select_In in H. rewrite (sort_by_In row_leb) in H.
  apply np_unique_rows_In. exact H.
Qed.

Lemma row_leb_birth (r s : row) : row_leb r s = true -> birth_leb r s.
Proof.
  unfold birth_leb. rewrite row_leb_spec.
  intros [H|[H _]]; [apply sort_leb_false|]; exact H.
Qed.

(** The rows kept by the running maximum, from a finite maximum [m] on:
    their deaths are at least [m] and do not decrease. *)
Lemma running_max_kept (l : list (R * R)) (m : R) :
  let d := diagram_of l in
  let kept :=
    mask_select d
      (map (fun '(m, x) => veqb m x)
           (combine (accumulate_from (Fin m) (map snd d)) (map snd d))) in
  Forall (fun r => sort_leb (Fin m) (snd r) = true) kept /\
  ordered death_leb kept.
Proof.
  revert m. induction l as [|[b e] t IH]; intros m; cbn zeta.
  - split; constructor.
  - cbn [diagram_of map fst snd accumulate_from np_maximum vgtb combine
         mask_select veqb].
    fold (diagram_of t).
    destruct (Rlt_dec m e) as [Hlt|Hge].
    + rewrite (Rltb_true _ _ Hlt). cbn [veqb]. rewrite Reqb_refl.
      destruct (IH e) as [H1 H2]. cbn zeta in H1, H2. split.
      * constructor.
        -- cbn [snd sort_leb]. rewrite Rltb_false by lra. reflexivity.
        -- eapply Forall_impl; [|exact H1]. intros r Hr.
           eapply sort_leb_trans; [|exact Hr].
           cbn [sort_leb]. rewrite Rltb_false by lra. reflexivity.
      * constructor; [exact H1|exact H2].
    + rewrite (Rltb_false m e) by lra. cbn [veqb].
      destruct (IH m) as [H1 H2]. cbn zeta in H1, H2.
      destruct (Req_dec_T m e) as [E|N].
      * rewrite (Reqb_true _ _ E). subst e. split.
        -- constructor; [|exact H1].
           cbn [snd sort_leb]. rewrite Rltb_false by lra. reflexivity.
        -- constructor; [exact H1|exact H2].
      * rewrite (Reqb_false _ _ N). split; assumption.
Qed.

Lemma finite_diagram_of (d : diagram) :
  finite_diagram d -> exists l, d = diagram_of l.
Proof.
  induction 1 as [|[b e] t [Hb He] _ [l ->]]; [exists []; reflexivity|].
  destruct b as [x| | |], e as [y| | |]; simpl in Hb, He; try contradiction.
  exists ((x, y) :: l). reflexivity.
Qed.

Lemma diagram_of_finite (l : list (R * R)) : finite_diagram (diagram_of l).
Proof.
  induction l as [|p t IH]; constructor; [|exact IH].
  split; exact I.
Qed.

Lemma finite_diagram_sub (d d' : diagram) :
  finite_diagram d' -> (forall r, In r d -> In r d') -> finite_diagram d.
Proof.
  unfold finite_diagram. rewrite !Forall_forall. auto.
Qed.

Lemma landscape_points_chain_aux (ps : list (R * R)) :
  (forall r, In r (getLandscapePoints (diagram_of ps)) ->
             In r (diagram_of ps)) /\
  (ps <> [] -> getLandscapePoints (diagram_of ps) <> []).
Proof.
  split; [intros r; apply getLandscapePoints_In|].
  intros Hne. apply getLandscapePoints_nonempty.
  - destruct ps; [contradiction|discriminate].
  - apply diagram_of_death_not_nan.
Qed.

(** X10. The rows that [getLandscapePoints] keeps are rows of the
    diagram; in the order returned neither their births nor their deaths
    decrease; and a non-empty diagram of finite pairs keeps at least one
    row. *)
Theorem landscape_points_chain (ps : list (R * R)) :
  (forall r, In r (getLandscapePoints (diagram_of ps)) ->
             In r (diagram_of ps)) /\
  ordered birth_leb (getLandscapePoints (diagram_of ps)) /\
  ordered death_leb (getLandscapePoints (diagram_of ps)) /\
  (ps <> [] -> getLandscapePoints (diagram_of ps) <> []).
Proof.
  split; [intros r; apply getLandscapePoints_In|].
  split; [|split].
  - unfold getLandscapePoints, np_lexsort_rows.
    apply ordered_mask_select.
    apply (ordered_impl (le_of row_leb)); [exact row_leb_birth|].
    apply sort_by_ordered; [exact row_leb_total|exact row_leb_trans].
  - unfold getLandscapePoints, np_lexsort_rows.
    destruct (finite_diagram_of (sort_by row_leb (np_unique_rows (diagram_of ps))))
      as [l Hl].
    { apply (finite_diagram_sub _ (diagram_of ps));
        [apply diagram_of_finite|].
      intros r Hr. apply np_unique_rows_In.
      rewrite (sort_by_In row_leb) in Hr. exact Hr. }
    rewrite Hl. destruct l as [|[b e] t]; [constructor|].
    cbn [diagram_of map fst snd np_maximum_accumulate combine mask_select
         veqb].
    fold (diagram_of t). rewrite Reqb_refl.
    destruct (running_max_kept t e) as [H1 H2]. cbn zeta in H1, H2.
    constructor; [exact H1|exact H2].
  - intros Hne. apply getLandscapePoints_nonempty.
    + destruct ps; [contradiction|discriminate].
    + apply diagram_of_death_not_nan.
Qed.

(** Witness for X10. *)
Lemma landscape_points_chain_witness :
  (forall r, In r (getLandscapePoints (diagram_of [(0, 2); (1, 3)])) ->
             In r (diagram_of [(0, 2); (1, 3)])) /\
  ordered birth_leb (getLandscapePoints (diagram_of [(0, 2); (1, 3)])) /\
  ordered death_leb (getLandscapePoints (diagram_of [(0, 2); (1, 3)])) /\
  getLandscapePoints (diagram_of [(0, 2); (1, 3)]) <> [].
Proof.
  destruct (landscape_points_chain [(0, 2); (1, 3)]) as (H1 & H2 & H3 & H4).
  repeat split; try assumption. apply H4. discriminate.
Defined.

(** ** Areas under the landscape *)

Lemma In_diagram_of (p : R * R) (l : list (R * R)) :
  In (Fin (fst p), Fin (snd p)) (diagram_of l) -> In p l.
Proof.
  unfold diagram_of. rewrite in_map_iff. intros [q [E Hq]].
  inversion E. destruct p, q; simpl in *; subst. exact Hq.
Qed.

Lemma ordered_map {A B : Type} (f : A -> B) (R : B -> B -> Prop)
    (l : list A) :
  ordered R (map f l) -> ordered (fun a b => R (f a) (f b)) l.
Proof.
  induction l as [|x t IH]; intros H; [constructor|].
  inversion H as [|? ? Hx Ht]; subst. constructor; [|apply IH; exact Ht].
  rewrite Forall_forall in *. intros z Hz. apply Hx. apply in_map. exact Hz.
Qed.

(** The points produced by the loop of [getLandscapeReturnPoints] are
    finite; they lie on or above the axis when no birth exceeds its
    death. *)
Lemma return_points_loop_fin (l : list (R * R)) :
  exists pts,
    return_points_loop (diagram_of l) = diagram_of pts /\
    (Forall (fun p => fst p <= snd p) l -> Forall (fun q => 0 <= snd q) pts).
Proof.
  induction l as [|[b e] rest IH].
  - exists []. split; [reflexivity|constructor].
  - destruct IH as [pts [Hpts Hy]].
    cbn [diagram_of map fst snd return_points_loop].
    fold (diagram_of rest). rewrite Hpts.
    cbn [vadd vsub vneg]. rewrite !half_fin.
    destruct rest as [|[b' e'] rest'].
    + exists (((e + b) / 2, (e + - b) / 2) :: (e, 0) :: pts).
      split; [reflexivity|].
      intros H. inversion H as [|? ? Hbe Hrest]; subst. cbn [fst snd] in Hbe.
      constructor; [simpl; lra|]. constructor; [simpl; lra|]. auto.
    + cbn [diagram_of map fst snd vgtb].
      destruct (Rlt_dec e b') as [Hlt|Hge].
      * rewrite (Rltb_true _ _ Hlt).
        exists (((e + b) / 2, (e + - b) / 2) :: (e, 0) :: (b', 0) :: pts).
        split; [reflexivity|].
        intros H. inversion H as [|? ? Hbe Hrest]; subst.
        cbn [fst snd] in Hbe.
        repeat (constructor; [simpl; lra|]). auto.
      * rewrite (Rltb_false e b') by lra.
        cbn [vadd vsub vneg]. rewrite !half_fin.
        exists (((e + b) / 2, (e + - b) / 2)
                :: ((e + b') / 2, (e + - b') / 2) :: pts).
        split; [reflexivity|].
        intros H. inversion H as [|? ? Hbe Hrest]; subst.
        cbn [fst snd] in Hbe.
        repeat (constructor; [simpl; lra|]). auto.
Qed.

(** [np.unique] of finite points: finite points again, by increasing
    abscissa, all taken from the input. *)
Lemma np_unique_rows_fin (pts : list (R * R)) :
  exists pts',
    np_unique_rows (diagram_of pts) = diagram_of pts' /\
    ordered (fun p q => fst p <= fst q) pts' /\
    (forall q, In q pts' -> In q pts).
Proof.
  destruct (np_unique_rows_strict (diagram_of pts) (diagram_of_finite pts))
    as [Ho Hin].
  destruct (finite_diagram_of (np_unique_rows (diagram_of pts))) as [pts' E].
  { apply (finite_diagram_sub _ (diagram_of pts));
      [apply diagram_of_finite|]. intros r. apply Hin. }
  exists pts'. split; [exact E|]. split.
  - rewrite E in Ho. unfold diagram_of in Ho. apply ordered_map in Ho.
    eapply ordered_impl; [|exact Ho].
    intros p q [Hle _]. apply row_leb_birth in Hle.
    unfold birth_leb in Hle. cbn [fst sort_leb] in Hle.
    apply negb_true_iff in Hle. unfold Rltb in Hle.
    destruct (Rlt_dec (fst q) (fst p)); [discriminate|lra].
  - intros q Hq. apply In_diagram_of. apply Hin. rewrite E.
    unfold diagram_of. apply (in_map (fun p => (Fin (fst p), Fin (snd p)))).
    exact Hq.
Qed.

Lemma l2areaUnderLine_fin (p q : R * R) :
  l2areaUnderLine (Fin (fst p), Fin (snd p)) (Fin (fst q), Fin (snd q))
  = (Fin (- ((fst p - fst q) * (snd p + snd q)) / 2),
     Fin (- ((fst p - fst q)
             * (snd p * snd p + snd p * snd q + snd q * snd q)) / 3)).
Proof.
  unfold l2areaUnderLine. cbn [vsub vneg vadd vmul].
  rewrite !vdiv_fin by lra. reflexivity.
Qed.

(** The integration loop on finite points by increasing abscissa: the
    squared area does not decrease, nor does the area when the points are
    on or above the axis. *)
Lemma landscape_sweep_fin (pts : list (R * R)) (a b : R) :
  exists a' b',
    landscape_sweep (diagram_of pts) (Fin a) (Fin b) = (Fin a', Fin b') /\
    (ordered (fun p q => fst p <= fst q) pts ->
     b <= b' /\ (Forall (fun q => 0 <= snd q) pts -> a <= a')).
Proof.
  revert a b. induction pts as [|p rest IH]; intros a b.
  - exists a, b. split; [reflexivity|]. intros _. split; [lra|intros _; lra].
  - destruct rest as [|q rest].
    + exists a, b. split; [reflexivity|].
      intros _. split; [lra|intros _; lra].
    + cbn [diagram_of map landscape_sweep].
      change (map (fun p0 : R * R => (Fin (fst p0), Fin (snd p0))) rest)
        with (diagram_of rest).
      rewrite l2areaUnderLine_fin. cbn [vadd].
      set (s1 := - ((fst p - fst q) * (snd p + snd q)) / 2).
      set (s2 := - ((fst p - fst q)
                    * (snd p * snd p + snd p * snd q + snd q * snd q)) / 3).
      destruct (IH (a + s1) (b + s2)) as (a' & b' & Hs & Hord).
      exists a', b'. split; [exact Hs|].
      intros Ho. inversion Ho as [|? ? Hp Hrest]; subst.
      inversion Hp as [|? ? Hpq _]; subst.
      destruct (Hord Hrest) as [Hb Ha].
      assert (Hq2 : 0 <= snd p * snd p + snd p * snd q + snd q * snd q)
        by nra.
      assert (Hs2 : 0 <= s2) by (subst s2; nra).
      split; [lra|].
      intros Hy. inversion Hy as [|? ? Yp Yrest]; subst.
      inversion Yrest as [|? ? Yq _]; subst.
      specialize (Ha Yrest).
      assert (Hs1 : 0 <= s1) by (subst s1; nra).
      lra.
Qed.

Lemma landscape_areas_fin (ps : list (R * R)) :
  exists a v,
    get_area_under_landscape (diagram_of ps) = ret (Fin a, Fin (sqrt v)) /\
    0 <= v /\
    (Forall (fun p => fst p <= snd p) ps -> 0 <= a).
Proof.
  destruct ps as [|p0 ps'] eqn:Eps.
  { exists 0, 0. rewrite sqrt_0. repeat split; try lra. }
  rewrite <- Eps.
  assert (Hne : diagram_of ps <> []) by (subst ps; discriminate).
  unfold get_area_under_landscape.
  destruct (diagram_of ps) as [|r0 t0] eqn:Hd; [contradiction|].
  rewrite <- Hd. clear Hne.
  unfold getLandscapeReturnPoints.
  destruct (landscape_points_chain_aux ps) as (Hin & Hnonempty).
  destruct (finite_diagram_of (argsort_col0 (getLandscapePoints (diagram_of ps))))
    as [sl Hsl].
  { apply (finite_diagram_sub _ (diagram_of ps));
      [apply diagram_of_finite|].
    intros r Hr. unfold argsort_col0 in Hr. rewrite sort_by_In in Hr.
    apply Hin. exact Hr. }
  assert (Hsub : forall p, In p sl -> In p ps).
  { intros p Hp. apply In_diagram_of. apply Hin.
    apply (sort_by_In (fun r s => sort_leb (fst r) (fst s))).
    fold (argsort_col0 (getLandscapePoints (diagram_of ps))). rewrite Hsl.
    unfold diagram_of. apply (in_map (fun p => (Fin (fst p), Fin (snd p)))).
    exact Hp. }
  rewrite Hsl.
  destruct sl as [|[b0 e0] sl'].
  { exfalso.
    apply (sort_by_nonempty (fun r s => sort_leb (fst r) (fst s))
             (getLandscapePoints (diagram_of ps)));
      [apply Hnonempty; subst ps; discriminate|exact Hsl]. }
  change (diagram_of ((b0, e0) :: sl'))
    with ((Fin b0, Fin e0) :: diagram_of sl') at 1.
  cbn beta iota.
  destruct (return_points_loop_fin ((b0, e0) :: sl')) as [pts [Hpts Hy]].
  rewrite Hpts.
  change ((Fin b0, Fin 0) :: diagram_of pts)
    with (diagram_of ((b0, 0) :: pts)).
  destruct (np_unique_rows_fin ((b0, 0) :: pts)) as (pts' & Hu & Ho & Hin').
  rewrite Hu. cbn [bind ret].
  destruct (landscape_sweep_fin pts' 0 0) as (a & v & Hs & Hmono).
  rewrite Hs. destruct (Hmono Ho) as [Hv Ha].
  exists a, v. cbn [vsqrt]. rewrite (Rltb_false v 0) by exact Hv.
  split; [reflexivity|]. split; [exact Hv|].
  intros Hup. apply Ha. apply Forall_forall. intros q Hq.
  apply Hin' in Hq. destruct Hq as [<-|Hq]; [simpl; lra|].
  assert (Hy' : Forall (fun q => 0 <= snd q) pts).
  { apply Hy. apply Forall_forall. intros p Hp.
    rewrite Forall_forall in Hup. apply Hup. apply Hsub. exact Hp. }
  rewrite Forall_forall in Hy'. apply Hy'. exact Hq.
Qed.



(** ** The feature vector of a finite diagram *)

(** X12. A row with an infinite birth or death has no influence on the
    features: the vector is the one of the diagram without that row. *)
Theorem infinite_rows_are_ignored (d1 d2 : diagram) (r : row) :
  np_isinf (fst r) || np_isinf (snd r) = true ->
  get_diagram_features (d1 ++ r :: d2) = get_diagram_features (d1 ++ d2).
Proof.
  intros Hr.
  assert (E : drop_inf_rows (d1 ++ r :: d2) = drop_inf_rows (d1 ++ d2)).
  { unfold drop_inf_rows. rewrite !filter_app. cbn [filter].
    rewrite Hr. reflexivity. }
  unfold get_diagram_features. rewrite E. reflexivity.
Qed.

(** Witness for X12: the essential class [(0, +inf)] of a level-set
    diagram. *)
Lemma infinite_rows_are_ignored_witness :
  get_diagram_features ([(Fin 1, Fin 2)] ++ (Fin 0, PInf) :: [(Fin 3, Fin 5)])
  = get_diagram_features ([(Fin 1, Fin 2)] ++ [(Fin 3, Fin 5)]).
Proof.
  apply (infinite_rows_are_ignored [(Fin 1, Fin 2)] [(Fin 3, Fin 5)]
           (Fin 0, PInf)).
  reflexivity.
Defined.

Lemma div_sqrt2_le (x y : R) : x <= y -> x / sqrt 2 <= y / sqrt 2.
Proof.
  intros H. pose proof (Rinv_0_lt_compat _ sqrt2_pos) as Hi.
  unfold Rdiv. nra.
Qed.

Lemma div_sqrt2_positive (x : R) : 0 < x -> 0 < x / sqrt 2.
Proof.
  intros H. apply Rdiv_lt_0_compat; [exact H|exact sqrt2_pos].
Qed.

(** X13. For a non-empty diagram of finite pairs in the safe range
    (births and deaths bounded by [safe_bound] in absolute value, every
    life at least its inverse, at most that many pairs), the extraction
    returns seven real numbers: a maximal life that is positive and at
    most the total life, a non-negative entropy, a first Betti area equal
    to [sqrt 2] times the total life, and non-negative second Betti area
    and landscape areas. *)
Theorem features_of_positive_diagram (ps : list (R * R)) :
  ps <> [] ->
  Forall (fun p => - safe_bound <= fst p /\ snd p <= safe_bound /\
                   / safe_bound <= snd p - fst p) ps ->
  INR (length ps) <= safe_bound ->
  exists t m e b2 l1 l2,
    get_diagram_features (diagram_of ps)
      = ret [Fin t; Fin m; Fin e; Fin (t * sqrt 2); Fin b2; Fin l1; Fin l2] /\
    0 < m <= t /\ 0 <= e /\ 0 <= b2 /\ 0 <= l1 /\ 0 <= l2.
Proof.
  intros Hne Hrange _.
  assert (Hpos : Forall (fun p => fst p < snd p) ps).
  { eapply Forall_impl; [|exact Hrange]. intros p (_ & _ & H).
    pose proof safe_bound_inv. lra. }
  set (lives := map (fun p => snd p + - fst p) ps).
  assert (Hlives : Forall (fun l => 0 < l) lives).
  { apply Forall_forall. intros l Hl. apply in_map_iff in Hl.
    destruct Hl as [p [<- Hp]]. rewrite Forall_forall in Hpos.
    specialize (Hpos p Hp). lra. }
  assert (Hlne : lives <> []) by (destruct ps; [contradiction|discriminate]).
  unfold get_diagram_features.
  rewrite drop_inf_rows_finite, get_diagram_lives_finite by exact Hne.
  fold lives. rewrite py_sum_fin, vdiv_sqrt2.
  rewrite (entropy_of_positive_shares lives Hlne Hlives).
  destruct (betti_areas_fin ps) as (v & Hb & Hv). rewrite Hb.
  destruct (landscape_areas_fin ps) as (a & w & Hl & Hw & Ha). rewrite Hl.
  destruct lives as [|x u] eqn:E; [contradiction|].
  cbn [map py_max bind ret]. rewrite fold_left_vgtb_fin, vdiv_sqrt2.
  exists (Rsum (x :: u) / sqrt 2), (Rmax_left u x / sqrt 2).
  do 4 eexists. split.
  - unfold ret. do 5 f_equal.
    change (lives_of ps) with lives. rewrite E.
    f_equal. pose proof sqrt2_pos. field. lra.
  - assert (Hin : In (Rmax_left u x) (x :: u)).
    { destruct (Rmax_left_In u x) as [->|H]; [left; reflexivity|right; exact H]. }
    split; [split|].
    + apply div_sqrt2_positive. rewrite Forall_forall in Hlives. auto.
    + apply div_sqrt2_le. apply Rsum_ge_element; assumption.
    + split; [exact (shares_entropy_nonneg (x :: u) Hlives)|].
      split; [apply sqrt_pos|].
      split; [|apply sqrt_pos].
      apply Ha. eapply Forall_impl; [|exact Hpos]. intros p Hp. lra.
Qed.

(** Witness for X13. *)
Lemma features_of_positive_diagram_witness :
  exists t m e b2 l1 l2,
    get_diagram_features (diagram_of [(0, 2); (1, 3)])
      = ret [Fin t; Fin m; Fin e; Fin (t * sqrt 2); Fin b2; Fin l1; Fin l2] /\
    0 < m <= t /\ 0 <= e /\ 0 <= b2 /\ 0 <= l1 /\ 0 <= l2.
Proof.
  apply (features_of_positive_diagram [(0, 2); (1, 3)]).
  - discriminate.
  - repeat constructor; safe_range.
  - safe_range.
Defined.

(** ** From feature vectors to the table of subwindow features *)

Lemma tabulate_nth (l : list val) :
  map (fun j => nth j l NaN) (seq 0 (length l)) = l.
Proof.
  induction l as [|x t IH]; [reflexivity|].
  cbn [length seq map nth]. f_equal.
  rewrite <- seq_shift, map_map. exact IH.
Qed.

Lemma forallb_same_length (w : nat) (r0 : list val) (series : list (list val)) :
  length r0 = w ->
  Forall (fun r => length r = w) series ->
  forallb (fun r => (length r =? length r0)%nat) series = true.
Proof.
  intros H0 H. apply forallb_forall. intros r Hr.
  rewrite Forall_forall in H. rewrite (H r Hr), H0. apply Nat.eqb_refl.
Qed.

(** X14. A series of lists of one common length becomes a well-formed
    frame with one row per list and one column per position, and its
    row [i] is the [i]-th list. *)
Theorem pd_series_to_dataframe_rows (w : nat) (series : list (list val)) :
  series <> [] ->
  Forall (fun r => length r = w) series ->
  exists df,
    pd_series_to_dataframe series = ret df /\
    df_index df = seq 0 (length series) /\
    length (df_columns df) = w /\
    frame_wf df /\
    forall i, (i < length series)%nat -> row_at df i = nth i series [].
Proof.
  intros Hne Hw. destruct series as [|r0 rest]; [contradiction|].
  unfold pd_series_to_dataframe.
  assert (H0 : length r0 = w).
  { rewrite Forall_forall in Hw. apply Hw. left. reflexivity. }
  set (series := r0 :: rest) in *.
  rewrite (forallb_same_length w r0 series H0 Hw).
  eexists. split; [reflexivity|]. cbn [df_index df_columns].
  split; [reflexivity|].
  split; [rewrite length_map, length_seq; exact H0|].
  split.
  - unfold frame_wf. cbn [df_index df_columns].
    apply Forall_forall. intros col Hcol. apply in_map_iff in Hcol.
    destruct Hcol as [j [<- _]]. rewrite length_map, length_seq. reflexivity.
  - intros i Hi. unfold row_at. cbn [df_columns]. rewrite map_map.
    assert (Hr : length (nth i series []) = w).
    { rewrite Forall_forall in Hw. apply Hw. apply nth_In. exact Hi. }
    etransitivity; [|apply (tabulate_nth (nth i series []))].
    rewrite Hr, H0. apply map_ext. intros j.
    rewrite (nth_indep _ NaN (nth j [] NaN))
      by (rewrite length_map; exact Hi).
    apply (map_nth (fun r => nth j r NaN)).
Qed.

(** Witness for X14. *)
Lemma pd_series_to_dataframe_rows_witness :
  exists df,
    pd_series_to_dataframe [[Fin 1; Fin 2]; [Fin 3; Fin 4]; [Fin 5; Fin 6]]
      = ret df /\
    df_index df
      = seq 0 (length [[Fin 1; Fin 2]; [Fin 3; Fin 4]; [Fin 5; Fin 6]]) /\
    length (df_columns df) = 2%nat /\
    frame_wf df /\
    forall i,
      (i < length [[Fin 1; Fin 2]; [Fin 3; Fin 4]; [Fin 5; Fin 6]])%nat ->
      row_at df i
        = nth i [[Fin 1; Fin 2]; [Fin 3; Fin 4]; [Fin 5; Fin 6]] [].
Proof.
  apply (pd_series_to_dataframe_rows 2
           [[Fin 1; Fin 2]; [Fin 3; Fin 4]; [Fin 5; Fin 6]]).
  - discriminate.
  - repeat constructor.
Defined.

(** X15. Lists of different lengths are rejected: the conversion raises
    [ValueError] as soon as one list is not as long as the first one. *)
Theorem pd_series_to_dataframe_ragged (r0 r : list val)
    (rest : list (list val)) :
  In r rest ->
  length r <> length r0 ->
  pd_series_to_dataframe (r0 :: rest) = raise ValueError.
Proof.
  intros Hin Hlen. unfold pd_series_to_dataframe.
  destruct (forallb (fun r => (length r =? length r0)%nat) (r0 :: rest))
    eqn:E; [|reflexivity].
  rewrite forallb_forall in E.
  specialize (E r (or_intror Hin)). apply Nat.eqb_eq in E. contradiction.
Qed.

(** Witness for X15. *)
Lemma pd_series_to_dataframe_ragged_witness :
  pd_series_to_dataframe [[Fin 1; Fin 2]; [Fin 3]] = raise ValueError.
Proof.
  apply (pd_series_to_dataframe_ragged [Fin 1; Fin 2] [Fin 3] [[Fin 3]]).
  - left. reflexivity.
  - simpl. lia.
Defined.

Lemma get_diagram_features_length (d : diagram) (v : list val) :
  get_diagram_features d = ret v -> length v = 7%nat.
Proof.
  unfold get_diagram_features.
  destruct (py_max _) as [e|m]; [discriminate|]. cbn [bind].
  destruct (get_diagram_entropy _) as [e|en]; [discriminate|]. cbn [bind].
  destruct (get_area_under_betti_curve _) as [b1 b2].
  destruct (get_area_under_landscape _) as [e|[l1 l2]]; [discriminate|].
  cbn [bind ret]. intros H. inversion H. reflexivity.
Qed.

Lemma series_map_spec {A B : Type} (f : A -> result B) (s : list A)
    (rows : list B) :
  series_map f s = ret rows ->
  length rows = length s /\
  Forall (fun v => exists x, In x s /\ f x = ret v) rows.
Proof.
  revert rows. induction s as [|x t IH]; intros rows; cbn [series_map].
  - intros H. inversion H. split; [reflexivity|constructor].
  - destruct (f x) as [e|y] eqn:Ef; [discriminate|]. cbn [bind].
    destruct (series_map f t) as [e|ys]; [discriminate|]. cbn [bind ret].
    intros H. inversion H; subst rows. destruct (IH ys eq_refl) as [H1 H2].
    split; [simpl; rewrite H1; reflexivity|].
    constructor.
    + exists x. split; [left; reflexivity|exact Ef].
    + eapply Forall_impl; [|exact H2].
      intros v [z [Hz Hv]]. exists z. split; [right; exact Hz|exact Hv].
Qed.

(** X16. Whatever the diagrams are, when the extraction succeeds on each
    of them the conversion of the feature vectors to a frame cannot fail:
    the frame has one row per diagram and, unless there is no diagram,
    seven columns. *)
Theorem features_frame_shape (ds : list diagram) (rows : list (list val)) :
  series_map get_diagram_features ds = ret rows ->
  exists df,
    pd_series_to_dataframe rows = ret df /\
    df_index df = seq 0 (length ds) /\
    frame_wf df /\
    (ds <> [] -> length (df_columns df) = 7%nat).
Proof.
  intros Hmap. destruct (series_map_spec _ _ _ Hmap) as [Hlen Hrows].
  assert (H7 : Forall (fun r => length r = 7%nat) rows).
  { eapply Forall_impl; [|exact Hrows].
    intros v [d [_ Hd]]. eapply get_diagram_features_length. exact Hd. }
  destruct rows as [|r0 rest].
  - exists (mkDataFrame [] []). split; [reflexivity|].
    destruct ds; [|discriminate].
    split; [reflexivity|]. split; [constructor|]. intros H. contradiction.
  - unfold pd_series_to_dataframe.
    assert (H0 : length r0 = 7%nat).
    { rewrite Forall_forall in H7. apply H7. left. reflexivity. }
    rewrite (forallb_same_length 7 r0 (r0 :: rest) H0 H7).
    eexists. split; [reflexivity|]. cbn [df_index df_columns].
    split; [rewrite Hlen; reflexivity|]. split.
    + unfold frame_wf. cbn [df_index df_columns].
      apply Forall_forall. intros col Hcol. apply in_map_iff in Hcol.
      destruct Hcol as [j [<- _]]. rewrite length_map, length_seq.
      reflexivity.
    + intros _. rewrite length_map, length_seq. exact H0.
Qed.

(** Witness for X16: the empty diagram and a diagram of one pair. *)
Lemma features_frame_shape_witness :
  exists rows df,
    series_map get_diagram_features [[]; [(Fin 1, Fin 3)]] = ret rows /\
    pd_series_to_dataframe rows = ret df /\
    df_index df = seq 0 (length [[]; [(Fin 1, Fin 3)]]) /\
    frame_wf df /\
    length (df_columns df) = 7%nat.
Proof.
  destruct (get_diagram_features_returns []) as
    (m0 & e0 & a0 & b0 & c0 & d0 & _ & _ & _ & _ & H0); [constructor|].
  destruct (get_diagram_features_returns [(Fin 1, Fin 3)]) as
    (m1 & e1 & a1 & b1 & c1 & d1 & _ & _ & _ & _ & H1);
    [repeat constructor|].
  unfold diagram, row in H0, H1.
  match type of H0 with _ = ret ?v0 =>
    match type of H1 with _ = ret ?v1 =>
      assert (Hs : series_map get_diagram_features [[]; [(Fin 1, Fin 3)]]
                   = ret [v0; v1])
        by (cbn [series_map]; rewrite H0, H1; reflexivity);
      exists [v0; v1]
    end
  end.
  destruct (features_frame_shape _ _ Hs) as (df & Hd & Hi & Hw & H7).
  exists df. repeat split; try assumption. apply H7. discriminate.
Defined.


(** ** Window aggregation on arbitrary values *)

Lemma mask_select_length {A B : Type} (l : list A) (l' : list B)
    (mask : list bool) :
  length l = length mask -> length l' = length mask ->
  length (mask_select l mask) = length (mask_select l' mask).
Proof.
  revert l l'. induction mask as [|b bs IH]; intros [|x t] [|x' t'] H H';
    try discriminate; [reflexivity|].
  cbn [mask_select]. simpl in H, H'.
  destruct b; cbn [length]; rewrite (IH t t') by lia; reflexivity.
Qed.

(** An element kept by a mask computed from the positions sits at a
    position where the mask holds. *)
Lemma mask_select_pos {A : Type} (d : A) (f : nat -> bool) (l : list A)
    (s : nat) (v : A) :
  In v (mask_select l (map f (seq s (length l)))) ->
  exists i, (i < length l)%nat /\ nth i l d = v /\ f (s + i)%nat = true.
Proof.
  revert s. induction l as [|x t IH]; intros s; cbn [length seq map mask_select];
    [contradiction|].
  destruct (f s) eqn:E.
  - intros [<-|H].
    + exists 0%nat. rewrite Nat.add_0_r. repeat split; [lia|exact E].
    + destruct (IH (S s) H) as (i & Hi & Hn & Hf).
      exists (S i). rewrite Nat.add_succ_r. repeat split; [lia|exact Hn|exact Hf].
  - intros H. destruct (IH (S s) H) as (i & Hi & Hn & Hf).
    exists (S i). rewrite Nat.add_succ_r. repeat split; [lia|exact Hn|exact Hf].
Qed.

Lemma rolling_wf (stat : nat -> list val -> nat -> val) (n : nat)
    (df : DataFrame) :
  frame_wf df -> frame_wf (rolling stat n df).
Proof.
  unfold frame_wf, rolling. cbn [df_index df_columns].
  rewrite !Forall_forall. intros H col Hcol.
  apply in_map_iff in Hcol. destruct Hcol as [c [<- Hc]].
  rewrite length_map, length_seq. apply H. exact Hc.
Qed.

Lemma concat_columns_wf (a b : DataFrame) :
  df_index b = df_index a -> frame_wf a -> frame_wf b ->
  frame_wf (concat_columns a b).
Proof.
  unfold frame_wf, concat_columns. cbn [df_index df_columns].
  intros E Ha Hb. rewrite E in Hb. apply Forall_app. split; assumption.
Qed.

(** [dropna] keeps a frame well formed, keeps labels of the input only,
    and leaves no [nan]. *)
Lemma dropna_spec (df : DataFrame) :
  frame_wf df ->
  frame_wf (dropna df) /\
  length (df_columns (dropna df)) = length (df_columns df) /\
  (forall i, In i (df_index (dropna df)) -> In i (df_index df)) /\
  (forall col v, In col (df_columns (dropna df)) -> In v col ->
     np_isnan v = false).
Proof.
  intros Hwf. unfold dropna. cbn [df_index df_columns].
  set (keep := map _ (seq 0 (length (df_index df)))).
  assert (Hk : length keep = length (df_index df))
    by (subst keep; rewrite length_map, length_seq; reflexivity).
  split; [|split; [|split]].
  - unfold frame_wf. cbn [df_index df_columns].
    apply Forall_forall. intros col Hcol.
    apply in_map_iff in Hcol. destruct Hcol as [c [<- Hc]].
    unfold frame_wf in Hwf. rewrite Forall_forall in Hwf.
    apply mask_select_length; [rewrite Hk; apply Hwf; exact Hc|].
    symmetry. exact Hk.
  - apply length_map.
  - intros i. apply mask_select_In.
  - intros col v Hcol Hv.
    apply in_map_iff in Hcol. destruct Hcol as [c [<- Hc]].
    unfold frame_wf in Hwf. rewrite Forall_forall in Hwf.
    subst keep. rewrite <- (Hwf c Hc) in Hv.
    apply (mask_select_pos NaN) in Hv.
    destruct Hv as (i & Hi & Hn & Hf). cbn [Nat.add] in Hf.
    rewrite forallb_forall in Hf.
    specialize (Hf v). rewrite negb_true_iff in Hf. apply Hf.
    unfold row_at. rewrite <- Hn.
    apply (in_map (fun col => nth i col NaN)). exact Hc.
Qed.

(** X18. Whatever the values of a well-formed frame are (numbers,
    infinities or [nan]), the aggregated frame is well formed, has twice
    as many columns, carries labels of the input only and contains no
    [nan]. *)
Theorem window_features_invariants (df : DataFrame) (n : nat) :
  frame_wf df ->
  frame_wf (window_features df n) /\
  length (df_columns (window_features df n))
    = (2 * length (df_columns df))%nat /\
  (forall i, In i (df_index (window_features df n)) -> In i (df_index df)) /\
  (forall col v, In col (df_columns (window_features df n)) -> In v col ->
     np_isnan v = false).
Proof.
  intros Hwf. unfold window_features.
  set (F := concat_columns (rolling rolling_mean_at n df)
                           (rolling rolling_std_at n df)).
  assert (HF : frame_wf F).
  { apply concat_columns_wf; [reflexivity| |]; apply rolling_wf; exact Hwf. }
  destruct (dropna_spec F HF) as (H1 & H2 & H3 & H4).
  split; [exact H1|]. split; [|split; [exact H3|exact H4]].
  rewrite H2. subst F. unfold concat_columns, rolling. cbn [df_columns].
  rewrite length_app, !length_map. lia.
Qed.

(** Witness for X18: a frame with an infinity and a [nan]. *)
Lemma window_features_invariants_witness :
  frame_wf (window_features
              (mkDataFrame [0; 1; 2]%nat [[Fin 1; PInf; NaN]]) 2) /\
  length (df_columns (window_features
                        (mkDataFrame [0; 1; 2]%nat [[Fin 1; PInf; NaN]]) 2))
    = (2 * length (df_columns
                     (mkDataFrame [0; 1; 2]%nat [[Fin 1; PInf; NaN]])))%nat /\
  (forall i,
     In i (df_index (window_features
                       (mkDataFrame [0; 1; 2]%nat [[Fin 1; PInf; NaN]]) 2)) ->
     In i (df_index (mkDataFrame [0; 1; 2]%nat [[Fin 1; PInf; NaN]]))) /\
  (forall col v,
     In col (df_columns (window_features
                           (mkDataFrame [0; 1; 2]%nat [[Fin 1; PInf; NaN]]) 2)) ->
     In v col -> np_isnan v = false).
Proof.
  apply (window_features_invariants
           (mkDataFrame [0; 1; 2]%nat [[Fin 1; PInf; NaN]]) 2).
  repeat constructor.
Defined.

Lemma nobs_le_length (w : list val) : (nobs w <= length w)%nat.
Proof. unfold nobs. apply filter_length_le. Qed.

Lemma window_at_length (n : nat) (col : list val) (i : nat) :
  (length (window_at n col i) <= Nat.min (i + 1) n)%nat.
Proof.
  unfold window_at. rewrite length_skipn, length_firstn. lia.
Qed.

Lemma rolling_mean_at_short (n : nat) (col : list val) (i : nat) :
  (i + 1 < n)%nat -> rolling_mean_at n col i = NaN.
Proof.
  intros H. unfold rolling_mean_at.
  pose proof (nobs_le_length (window_at n col i)).
  pose proof (window_at_length n col i).
  destruct (Nat.ltb_spec (nobs (window_at n col i)) n); [reflexivity|lia].
Qed.

Lemma nobs_lt_length (w : list val) : In NaN w -> (nobs w < length w)%nat.
Proof.
  unfold nobs. induction w as [|x t IH]; [contradiction|].
  intros [->|H]; cbn [filter np_isnan np_isinf orb negb length].
  - pose proof (filter_length_le
                  (fun v => negb (np_isnan v || np_isinf v)) t). lia.
  - specialize (IH H).
    destruct (negb (np_isnan x || np_isinf x)); simpl; lia.
Qed.

Lemma rolling_mean_at_nan (n : nat) (col : list val) (i j : nat) :
  (i < length col)%nat -> (j <= i)%nat -> (i < j + n)%nat ->
  nth j col NaN = NaN ->
  rolling_mean_at n col i = NaN.
Proof.
  intros Hi Hji Hin Hj. unfold rolling_mean_at.
  assert (Hw : In NaN (window_at n col i)).
  { unfold window_at.
    assert (Hlen : (j - (i + 1 - n) < length (skipn (i + 1 - n) (firstn (i + 1) col)))%nat)
      by (rewrite length_skipn, length_firstn; lia).
    pose proof (nth_In _ NaN Hlen) as H.
    rewrite nth_skipn, nth_firstn in H.
    replace (i + 1 - n + (j - (i + 1 - n)))%nat with j in H by lia.
    destruct (Nat.ltb_spec j (i + 1)); [|lia].
    rewrite Hj in H. exact H. }
  pose proof (nobs_lt_length _ Hw).
  pose proof (window_at_length n col i).
  destruct (Nat.ltb_spec (nobs (window_at n col i)) n); [reflexivity|lia].
Qed.

(** A label emitted by the aggregation is a position at which the rolling
    mean of every column is not [nan]. *)
Lemma emitted_label_mean (k n i : nat) (cols : list (list val))
    (col : list val) :
  Forall (fun c => length c = k) cols ->
  In col cols ->
  In i (df_index (window_features (mkDataFrame (seq 0 k) cols) n)) ->
  (i < k)%nat /\ np_isnan (rolling_mean_at n col i) = false.
Proof.
  intros Hlen Hcol Hi. unfold window_features, dropna in Hi.
  cbn [df_index df_columns concat_columns rolling] in Hi.
  rewrite length_seq in Hi.
  rewrite <- (length_seq k 0) in Hi at 2.
  apply (mask_select_pos 0%nat) in Hi.
  destruct Hi as (p & Hp & Hn & Hf). rewrite length_seq in Hp.
  rewrite seq_nth in Hn by exact Hp. cbn [Nat.add] in Hn, Hf. subst p.
  split; [exact Hp|].
  rewrite forallb_forall in Hf.
  specialize (Hf (rolling_mean_at n col i)).
  rewrite negb_true_iff in Hf. apply Hf.
  unfold row_at, concat_columns, rolling. cbn [df_columns].
  rewrite map_app. apply in_or_app. left.
  rewrite map_map. apply in_map_iff. exists col. split; [|exact Hcol].
  rewrite Forall_forall in Hlen. rewrite (Hlen col Hcol).
  apply nth_tabulate. exact Hp.
Qed.

(** X19. Whatever the values are, no row is emitted for a label below
    [n - 1]: with at least one column, every emitted label [i] satisfies
    [n - 1 <= i < k]. *)
Theorem window_features_labels (k n : nat) (cols : list (list val)) :
  cols <> [] ->
  Forall (fun c => length c = k) cols ->
  Forall (fun i => (n - 1 <= i < k)%nat)
         (df_index (window_features (mkDataFrame (seq 0 k) cols) n)).
Proof.
  intros Hne Hlen. apply Forall_forall. intros i Hi.
  destruct cols as [|c0 cs]; [contradiction|].
  destruct (emitted_label_mean k n i (c0 :: cs) c0 Hlen
              (or_introl eq_refl) Hi) as [Hk Hm].
  split; [|exact Hk].
  destruct (Nat.lt_ge_cases (i + 1) n) as [H|H]; [|lia].
  rewrite (rolling_mean_at_short n c0 i H) in Hm. discriminate.
Qed.

(** Witness for X19: a column with an infinity. *)
Lemma window_features_labels_witness :
  Forall (fun i => (2 - 1 <= i < 3)%nat)
         (df_index (window_features
                      (mkDataFrame (seq 0 3) [[Fin 1; PInf; Fin 2]]) 2)).
Proof.
  apply (window_features_labels 3 2 [[Fin 1; PInf; Fin 2]]).
  - discriminate.
  - repeat constructor.
Defined.

(** X20. A [nan] in a feature row removes every window that contains the
    row: if some column is [nan] at position [j], no row is emitted for
    the labels [j] to [j + n - 1]. *)
Theorem window_features_nan_row (k n j : nat) (cols : list (list val))
    (col : list val) :
  Forall (fun c => length c = k) cols ->
  In col cols ->
  nth j col NaN = NaN ->
  Forall (fun i => ~ (j <= i < j + n)%nat)
         (df_index (window_features (mkDataFrame (seq 0 k) cols) n)).
Proof.
  intros Hlen Hcol Hj. apply Forall_forall. intros i Hi [H1 H2].
  destruct (emitted_label_mean k n i cols col Hlen Hcol Hi) as [Hk Hm].
  rewrite Forall_forall in Hlen.
  rewrite (rolling_mean_at_nan n col i j) in Hm;
    [discriminate|rewrite (Hlen col Hcol); exact Hk|exact H1|exact H2|exact Hj].
Qed.

(** Witness for X20: the second of four rows is [nan], windows of two. *)
Lemma window_features_nan_row_witness :
  Forall (fun i => ~ (1 <= i < 1 + 2)%nat)
         (df_index (window_features
                      (mkDataFrame (seq 0 4) [[Fin 1; NaN; Fin 2; Fin 4]]) 2)).
Proof.
  apply (window_features_nan_row 4 2 1 [[Fin 1; NaN; Fin 2; Fin 4]]
           [Fin 1; NaN; Fin 2; Fin 4]).
  - repeat constructor.
  - left. reflexivity.
  - reflexivity.
Defined.
